(** * ProjectView: client-side reconciliation of the ephemeral-action stream

    A shallow embedding of the state handling of the [ProjectView] React
    component (error list, zoom history, active actions, upload queue,
    socket reconnection options) and of the source-phase label of
    [LayerList], with the properties the specification states about them. *)

From Stdlib Require Import ZArith QArith Lia.
From stdpp Require Import gmap strings list pretty.

Open Scope string_scope.
Open Scope list_scope.

(** ** JavaScript helpers *)

Module Js.

(** Coordinates are JSON numbers; the handlers only store and forward them. *)
Definition number := Q.

(** The values a JSON field of type [any] can hold. *)
#[local] Unset Elimination Schemes.
Inductive Value :=
| Undefined
| Null
| Bool (b : bool)
| Number (n : number)
| String (s : string)
| Array (items : list Value)
| Object (fields : list (string * Value)).
#[local] Set Elimination Schemes.

(** [if (v)]: objects and arrays are always truthy, also when empty. *)
Definition truthy (v : Value) : bool :=
  match v with
  | Undefined | Null => false
  | Bool b => b
  | Number n => negb (Qeq_bool n 0)
  | String s => negb (bool_decide (s = ""))
  | Array _ | Object _ => true
  end.

(** Truthiness of an optional string field: absent and [""] are falsy. *)
Definition truthy_string (o : option string) : bool :=
  match o with
  | Some s => negb (bool_decide (s = ""))
  | None => false
  end.

(** [l.slice(0, end)]: a negative [end] counts from the back of the array. *)
Definition slice0 {A} (end_ : Z) (l : list A) : list A :=
  let len := Z.of_nat (length l) in
  let k := if (end_ <? 0)%Z then Z.max (len + end_) 0 else Z.min end_ len in
  take (Z.to_nat k) l.

(** [parts.join(sep)] *)
Definition join (sep : string) (parts : list string) : string :=
  String.concat sep parts.

(** [new Set(xs)] turned back into an array: first occurrences, in order. *)
Fixpoint unique_go (seen xs : list string) : list string :=
  match xs with
  | [] => []
  | x :: rest =>
      if bool_decide (x ∈ seen) then unique_go seen rest
      else x :: unique_go (x :: seen) rest
  end.

Definition unique (xs : list string) : list string := unique_go [] xs.

(** [hay.includes(needle)] *)
Fixpoint includes (needle hay : string) : bool :=
  String.prefix needle hay ||
  match hay with
  | EmptyString => false
  | String.String _ rest => includes needle rest
  end.

End Js.

(** ** The error list: [addError], [dismissError] and the auto-dismiss timers *)

Module Errors.

Record ErrorEntry := {
  id : string;
  message : string;
  timestamp : Z;
  shouldOverrideMessages : bool;
  sourceId : option string;
}.

(** A pending [setTimeout] callback that removes the entry [target]. *)
Record Timer := { due : Z; target : string }.

(** The [errors] state together with what [addError] emits: toasts and
    scheduled timers. *)
Record Store := {
  errors : list ErrorEntry;
  toasts : list string;
  timers : list Timer;
}.

(** What the environment answers when the handler runs: [Date.now()] and
    [Math.random().toString(36).substr(2, 9)]. *)
Record Clock := { now : Z; random : string }.

Definition empty : Store := {| errors := []; toasts := []; timers := [] |}.

(** The delay given to [setTimeout] in [addError], in milliseconds. *)
Definition AUTO_DISMISS_MS : Z := 30000.

(** [prevErrors.some((err) => err.message === message)] *)
Definition has_message (msg : string) (errs : list ErrorEntry) : bool :=
  existsb (fun err => bool_decide (message err = msg)) errs.

Definition toast_error (msg : string) (st : Store) : Store :=
  {| errors := errors st; toasts := toasts st ++ [msg]; timers := timers st |}.

Definition addError (c : Clock) (msg : string) (override : bool)
    (source : option string) (st : Store) : Store :=
  if has_message msg (errors st) then st
  else
    let newError :=
      {| id := pretty (now c) +:+ random c;
         message := msg;
         timestamp := now c;
         shouldOverrideMessages := override;
         sourceId := source |} in
    {| errors := errors st ++ [newError];
       toasts := if override then toasts st else toasts st ++ [msg];
       timers := timers st ++ [{| due := (now c + AUTO_DISMISS_MS)%Z;
                                  target := id newError |}] |}.

Definition dismissError (errorId : string) (st : Store) : Store :=
  {| errors := filter (fun e => id e ≠ errorId) (errors st);
     toasts := toasts st;
     timers := timers st |}.

(** The callback of one timer: [current.filter((e) => e.id !== newError.id)]. *)
Definition fire (tm : Timer) (errs : list ErrorEntry) : list ErrorEntry :=
  filter (fun e => id e ≠ target tm) errs.

(** Time reaches [t]: every timer that is due runs, in scheduling order. *)
Definition advance (t : Z) (st : Store) : Store :=
  {| errors := foldl (fun errs tm => fire tm errs) (errors st)
                 (filter (fun tm => (due tm <= t)%Z) (timers st));
     toasts := toasts st;
     timers := filter (fun tm => ¬ (due tm <= t)%Z) (timers st) |}.

End Errors.

(** ** The action reconciler: the WebSocket message effect of [ProjectView] *)

Module Reconciler.

Import Js.

Record Updates := { style_json : Value }.

(** An ephemeral action as it arrives on the socket. Optional fields are
    [None] when the JSON object lacks them. *)
Record EphemeralAction := {
  action_id : string;
  status : string;
  layer_id : option string;
  bounds : option (list number);
  error_message : option string;
  updates : option Updates;
}.

(** [lastMessage.data] after [JSON.parse] and the [ephemeral === true] test. *)
Inductive Message :=
| Malformed                      (* JSON.parse throws *)
| Chat                           (* any value without ephemeral === true *)
| Ephemeral (action : EphemeralAction).

Record ZoomHistoryEntry := { entry_bounds : list number }.

(** What [mapRef.current.getBounds()] reports. *)
Record LngLatBounds := { getWest : number; getSouth : number; getEast : number; getNorth : number }.

Record MapHandle := { getBounds : LngLatBounds }.

(** One [fitBounds] command sent to the map view. *)
Record FitBounds := {
  southwest : number * number;
  northeast : number * number;
  animate : bool;
  padding : option Z;
}.

(** What the handler reads from outside the component when it runs:
    [mapRef.current] and the clock. *)
Record Env := { mapRef : option MapHandle; clock : Errors.Clock }.

(** The ephemeral state of the component, with the commands it has issued. *)
Record State := {
  ui : Errors.Store;
  activeActions : list EphemeralAction;
  zoomHistory : list ZoomHistoryEntry;
  zoomHistoryIndex : Z;
  processedBoundsActionIds : gset string;
  fitBoundsCalls : list FitBounds;
  invalidateMapDataCalls : nat;
}.

Definition initial : State :=
  {| ui := Errors.empty;
     activeActions := [];
     zoomHistory := [];
     zoomHistoryIndex := (-1)%Z;
     processedBoundsActionIds := ∅;
     fitBoundsCalls := [];
     invalidateMapDataCalls := 0 |}.

Definition with_ui (f : Errors.Store → Errors.Store) (s : State) : State :=
  {| ui := f (ui s);
     activeActions := activeActions s;
     zoomHistory := zoomHistory s;
     zoomHistoryIndex := zoomHistoryIndex s;
     processedBoundsActionIds := processedBoundsActionIds s;
     fitBoundsCalls := fitBoundsCalls s;
     invalidateMapDataCalls := invalidateMapDataCalls s |}.

Definition setActiveActions (f : list EphemeralAction → list EphemeralAction)
    (s : State) : State :=
  {| ui := ui s;
     activeActions := f (activeActions s);
     zoomHistory := zoomHistory s;
     zoomHistoryIndex := zoomHistoryIndex s;
     processedBoundsActionIds := processedBoundsActionIds s;
     fitBoundsCalls := fitBoundsCalls s;
     invalidateMapDataCalls := invalidateMapDataCalls s |}.

Definition invalidateMapData (s : State) : State :=
  {| ui := ui s;
     activeActions := activeActions s;
     zoomHistory := zoomHistory s;
     zoomHistoryIndex := zoomHistoryIndex s;
     processedBoundsActionIds := processedBoundsActionIds s;
     fitBoundsCalls := fitBoundsCalls s;
     invalidateMapDataCalls := S (invalidateMapDataCalls s) |}.

Definition addError (env : Env) (msg : string) (override : bool) (s : State) : State :=
  with_ui (Errors.addError (clock env) msg override None) s.

(** The zoom of lines 293-320: record the id, push the current view and the
    target onto the history cut at the current index, move the index by two
    and command the view. *)
Definition zoomTo (m : MapHandle) (action : EphemeralAction) (target : list number)
    (s : State) : State :=
  let currentBounds := getBounds m in
  let currentBoundsArray :=
    [getWest currentBounds; getSouth currentBounds;
     getEast currentBounds; getNorth currentBounds] in
  let historyUpToCurrent := slice0 (zoomHistoryIndex s + 1) (zoomHistory s) in
  {| ui := ui s;
     activeActions := activeActions s;
     zoomHistory := historyUpToCurrent ++
                    [{| entry_bounds := currentBoundsArray |};
                     {| entry_bounds := target |}];
     zoomHistoryIndex := (zoomHistoryIndex s + 2)%Z;
     processedBoundsActionIds := processedBoundsActionIds s ∪ {[action_id action]};
     fitBoundsCalls := fitBoundsCalls s ++
       match target with
       | [west; south; east; north] =>
           [{| southwest := (west, south); northeast := (east, north);
               animate := true; padding := Some 50%Z |}]
       | _ => []
       end;
     invalidateMapDataCalls := invalidateMapDataCalls s |}.

(** How the body of the [try] block ends. State updates requested before a
    [throw] are kept. *)
Inductive Completion :=
| Finished (s : State)
| Threw (s : State).

(** The second half of the handler, lines 323-333. *)
Definition trackAction (action : EphemeralAction) (s : State) : Completion :=
  if bool_decide (status action = "active") then
    Finished (setActiveActions (fun prev => prev ++ [action]) s)
  else if bool_decide (status action = "completed") then
    let s' := setActiveActions
                (filter (fun a => action_id a ≠ action_id action)) s in
    match updates action with
    | None => Threw s'              (* reading a property of undefined *)
    | Some u =>
        if truthy (style_json u) then Finished (invalidateMapData s')
        else Finished s'
    end
  else Finished s.

(** The condition of line 288: bounds of length four, a map handle, and
    status "active". *)
Definition zoomRequest (env : Env) (action : EphemeralAction)
    : option (MapHandle * list number) :=
  match bounds action, mapRef env with
  | Some b, Some m =>
      if bool_decide (length b = 4%nat) && bool_decide (status action = "active")
      then Some (m, b) else None
  | _, _ => None
  end.

(** The body of the [try] block, lines 274-339. *)
Definition tryBody (env : Env) (msg : Message) (s : State) : Completion :=
  match msg with
  | Malformed => Threw s
  | Chat => Finished (invalidateMapData s)
  | Ephemeral action =>
      if truthy_string (error_message action) then
        Finished (addError env (default "" (error_message action)) true s)
      else
        match zoomRequest env action with
        | Some (m, b) =>
            if bool_decide (action_id action ∈ processedBoundsActionIds s)
            then Finished s
            else trackAction action (zoomTo m action b s)
        | None => trackAction action s
        end
  end.

Definition GENERIC_ERROR : string := "Failed to process update from server.".

(** One run of the message effect on a non-null [lastMessage]. *)
Definition processMessage (env : Env) (msg : Message) (s : State) : State :=
  match tryBody env msg s with
  | Finished s' => s'
  | Threw s' => addError env GENERIC_ERROR false s'
  end.

(** The effect lists [zoomHistoryIndex] among its dependencies, so React runs
    it again on the same [lastMessage] when the run has moved the index. *)
Definition deliver (env : Env) (msg : Message) (s : State) : State :=
  let s' := processMessage env msg s in
  if bool_decide (zoomHistoryIndex s' = zoomHistoryIndex s) then s'
  else processMessage env msg s'.

(** Messages are handled strictly in arrival order. *)
Definition run (s : State) (msgs : list (Env * Message)) : State :=
  foldl (fun st '(env, msg) => deliver env msg st) s msgs.


(** The part of the state a zoom touches. *)
Definition zoomState (s : State) :=
  (zoomHistory s, zoomHistoryIndex s, fitBoundsCalls s, processedBoundsActionIds s).



End Reconciler.

(** ** The upload queue: [onDrop] and [onDropRejected] *)

Module Upload.

Record File := { name : string; size : Z }.

Record UploadingFile := {
  id : string;
  file : File;
  progress : Z;
  status : string;
  error : option string;
}.

Definition DROPZONE_ACCEPT : list (string * list string) :=
  [("application/geo+json", [".geojson"; ".json"]);
   ("application/vnd.google-earth.kml+xml", [".kml"]);
   ("application/vnd.google-earth.kmz", [".kmz"]);
   ("image/tiff", [".tif"; ".tiff"]);
   ("image/jpeg", [".jpg"; ".jpeg"]);
   ("image/png", [".png"]);
   ("application/geopackage+sqlite3", [".gpkg"]);
   ("application/octet-stream", [".fgb"; ".dem"]);
   ("application/zip", [".zip"]);
   ("application/vnd.las", [".las"]);
   ("application/las+zip", [".laz"]);
   ("text/csv", [".csv"])].

Definition allowedExtensions : list string :=
  Js.unique (concat (snd <$> DROPZONE_ACCEPT)).

(** 500MB in bytes *)
Definition maxFileSize : Z := 500 * 1024 * 1024.

Definition quote : string := String.String (Ascii.ascii_of_nat 34) EmptyString.

Definition tooLargeMessage (f : File) : string :=
  "File " +:+ quote +:+ name f +:+ quote +:+
  " is too large. Files over 500MB aren't supported yet.".

Definition rejectedMessage (f : File) : string :=
  "Cannot upload " +:+ quote +:+ name f +:+ quote +:+
  ": Allowed extensions: " +:+ Js.join ", " allowedExtensions.

(** The upload queue, the started transfers ([uploadFile.mutate] calls) and
    the notifications. *)
Record State := {
  ui : Errors.Store;
  uploadingFiles : list UploadingFile;
  mutations : list (File * string);
}.

Definition initial : State :=
  {| ui := Errors.empty; uploadingFiles := []; mutations := [] |}.

Definition with_ui (f : Errors.Store → Errors.Store) (s : State) : State :=
  {| ui := f (ui s); uploadingFiles := uploadingFiles s; mutations := mutations s |}.

(** The callback of [acceptedFiles.filter]: an oversized file is announced
    with a toast and dropped. *)
Definition tooLarge (f : File) : Prop := (size f > maxFileSize)%Z.

#[global] Instance tooLarge_dec f : Decision (tooLarge f).
Proof. unfold tooLarge. apply _. Defined.

(** The uploading entry of the [k]-th valid file; [stamp k] is what
    [Date.now()] and [Math.random()] answer for it. *)
Definition newEntry (stamp : nat → Errors.Clock) (k : nat) (f : File) : UploadingFile :=
  {| id := name f +:+ "-" +:+ pretty (Errors.now (stamp k)) +:+ "-" +:+
           Errors.random (stamp k);
     file := f;
     progress := 0;
     status := "uploading";
     error := None |}.

Definition onDrop (versionId : option string) (stamp : nat → Errors.Clock)
    (acceptedFiles : list File) (s : State) : State :=
  if negb (Js.truthy_string versionId) || bool_decide (length acceptedFiles = 0%nat)
  then s
  else
    let s1 := foldl (fun st f => with_ui (Errors.toast_error (tooLargeMessage f)) st) s
                (filter tooLarge acceptedFiles) in
    let validFiles := filter (fun f => ¬ tooLarge f) acceptedFiles in
    if bool_decide (length validFiles = 0%nat) then s1
    else
      let newUploadingFiles := imap (newEntry stamp) validFiles in
      {| ui := ui s1;
         uploadingFiles := uploadingFiles s1 ++ newUploadingFiles;
         mutations := mutations s1 ++ ((fun u => (file u, id u)) <$> newUploadingFiles) |}.

(** Files the dropzone refuses for their type. *)
Definition onDropRejected (stamp : nat → Errors.Clock) (fileRejections : list File)
    (s : State) : State :=
  foldl (fun st '(k, f) =>
           with_ui (Errors.addError (stamp k) (rejectedMessage f) false None) st)
        s (imap pair fileRejections).

(** The claim that a notification lists the permitted file extensions. *)
Definition listsExtensions (notification : string) : bool :=
  forallb (fun ext => Js.includes ext notification) allowedExtensions.

End Upload.

(** ** External sources: the phase shown while a connection is documented *)

Module Sources.

Record PostgresConnectionDetails := {
  connection_id : string;
  friendly_name : option string;
  last_error_text : option string;
  is_documented : bool;
  processed_tables_count : option Z;
  table_count : option Z;
}.

(** The label of lines 564-569. *)
Definition phaseLabel (connection : PostgresConnectionDetails) : string :=
  let processed := default 0%Z (processed_tables_count connection) in
  let total := default 0%Z (table_count connection) in
  if bool_decide (processed = 0%Z) && bool_decide (total = 0%Z) then "Connecting..."
  else if bool_decide (processed < total)%Z then "Querying tables..."
  else "Summarizing...".

(** The icon choice of lines 558-563. *)
Definition isSummarizing (connection : PostgresConnectionDetails) : bool :=
  let processed := default 0%Z (processed_tables_count connection) in
  let total := default 0%Z (table_count connection) in
  negb (bool_decide (processed = 0%Z) && bool_decide (total = 0%Z))
  && bool_decide (processed >= total)%Z.

(** The three list items a connection can be rendered as (lines 520-659). *)
Inductive Row :=
| ErrorRow (tooltip : string)
| ProgressRow (spinner : bool) (label : string)
| DocumentedRow (title : option string).

Definition sourceRow (connection : PostgresConnectionDetails) : Row :=
  if Js.truthy_string (last_error_text connection) then
    ErrorRow (default "" (last_error_text connection))
  else if negb (is_documented connection) then
    ProgressRow (isSummarizing connection) (phaseLabel connection)
  else DocumentedRow (friendly_name connection).

End Sources.

(** ** The event-stream client: the options given to [useWebSocket] *)

Module Socket.

Definition backoffMs : list Z := [30; 1000; 5000; 15000; 50000]%Z.

(** 24 hours of continuous work, at 30 seconds each *)
Definition reconnectAttempts : Z := 2880.

Definition shouldReconnect : bool := true.

(** [backoffMs[Math.min(attempt, backoffMs.length - 1)]]; an index below zero
    reads [undefined]. *)
Definition reconnectInterval (attempt : Z) : option Z :=
  let i := Z.min attempt (Z.of_nat (length backoffMs) - 1) in
  if (i <? 0)%Z then None else backoffMs !! Z.to_nat i.

End Socket.

(** ** Everything that happens to the error list *)

Module ErrorLog.

Import Errors.

(** The three ways the list changes: a report, a click on dismiss, and the
    passing of time. *)
Inductive Op :=
| Add (c : Clock) (msg : string) (override : bool) (source : option string)
| Dismiss (errorId : string)
| Advance (t : Z).

Definition apply (st : Store) (o : Op) : Store :=
  match o with
  | Add c msg override source => addError c msg override source st
  | Dismiss errorId => dismissError errorId st
  | Advance t => advance t st
  end.

Definition replay (ops : list Op) : Store := foldl apply empty ops.

(** The times at which errors were reported. *)
Definition reportTimes (ops : list Op) : list Z :=
  omap (fun o => match o with Add c _ _ _ => Some (now c) | _ => None end) ops.

End ErrorLog.

(** ** The zoom buttons of [LayerList]: previous and next location *)

Module Navigation.

Import Js Reconciler.

(** [zoomHistory[newIndex]]: an index outside the array reads [undefined]. *)
Definition historyItem (s : State) (newIndex : Z) : option ZoomHistoryEntry :=
  if (newIndex <? 0)%Z then None else zoomHistory s !! Z.to_nat newIndex.

(** The shared body of both buttons, lines 678-691 and 715-728: with an
    item of four coordinates, command the view and move the index;
    otherwise only log. *)
Definition moveTo (newIndex : Z) (s : State) : State :=
  match historyItem s newIndex with
  | Some {| entry_bounds := [x0; y0; x1; y1] |} =>
      {| ui := ui s;
         activeActions := activeActions s;
         zoomHistory := zoomHistory s;
         zoomHistoryIndex := newIndex;
         processedBoundsActionIds := processedBoundsActionIds s;
         fitBoundsCalls := fitBoundsCalls s ++
           [{| southwest := (x0, y0); northeast := (x1, y1);
               animate := true; padding := None |}];
         invalidateMapDataCalls := invalidateMapDataCalls s |}
  | _ => s
  end.

(** [disabled={zoomHistoryIndex <= 0}] *)
Definition previousDisabled (s : State) : bool :=
  (zoomHistoryIndex s <=? 0)%Z.

(** [disabled={zoomHistoryIndex >= zoomHistory.length - 1}] *)
Definition nextDisabled (s : State) : bool :=
  (zoomHistoryIndex s >=? Z.of_nat (length (zoomHistory s)) - 1)%Z.

(** The click handler of "Previous location". *)
Definition previousLocation (env : Env) (s : State) : State :=
  if (0 <? zoomHistoryIndex s)%Z && bool_decide (is_Some (mapRef env))
  then moveTo (zoomHistoryIndex s - 1) s
  else s.

(** The click handler of "Next location". *)
Definition nextLocation (env : Env) (s : State) : State :=
  if (zoomHistoryIndex s <? Z.of_nat (length (zoomHistory s)) - 1)%Z
     && bool_decide (is_Some (mapRef env))
  then moveTo (zoomHistoryIndex s + 1) s
  else s.

(** What can happen to the zoom state in a session: a run of the message
    effect, or a click on one of the two buttons. *)
Inductive Step :=
| Process (env : Env) (msg : Message)
| Previous (env : Env)
| Next (env : Env).

Definition step (s : State) (e : Step) : State :=
  match e with
  | Process env msg => processMessage env msg s
  | Previous env => previousLocation env s
  | Next env => nextLocation env s
  end.

Definition session (s : State) (es : list Step) : State := foldl step s es.

(** The history holds four-coordinate entries and the index points into it,
    or is -1 over an empty history. *)
Definition wellFormed (s : State) : Prop :=
  Forall (fun e => length (entry_bounds e) = 4%nat) (zoomHistory s)
  ∧ (-1 <= zoomHistoryIndex s < Z.of_nat (length (zoomHistory s)))%Z.

End Navigation.

(** ** Layers of [LayerList] and the hidden-layer list of [ProjectView] *)

Module Layers.

Import Reconciler.

(** [toggleLayerVisibility], lines 486-488 of [ProjectView]. *)
Definition toggleLayerVisibility (layerId : string) (prev : list string) : list string :=
  if bool_decide (layerId ∈ prev) then filter (fun id => id ≠ layerId) prev
  else prev ++ [layerId].

(** [activeActions.some((action) => action.layer_id === layerDetails.id)] *)
Definition hasActiveAction (layerId : string) (actions : list EphemeralAction) : bool :=
  existsb (fun action => bool_decide (layer_id action = Some layerId)) actions.

(** [getLayerErrors] *)
Definition getLayerErrors (errors : list Errors.ErrorEntry) (layerId : string)
    : list Errors.ErrorEntry :=
  filter (fun error => Errors.sourceId error = Some layerId) errors.

(** [getNameClassName] *)
Definition getNameClassName (hiddenLayerIDs : list string)
    (errors : list Errors.ErrorEntry) (layerId : string) : string :=
  if bool_decide (layerId ∈ hiddenLayerIDs) then "line-through text-gray-400"
  else if bool_decide (0 < length (getLayerErrors errors layerId))%nat then "text-red-300"
  else "".

(** [errorTitle] *)
Definition errorTitle (errors : list Errors.ErrorEntry) (layerId : string)
    : option string :=
  let layerErrors := getLayerErrors errors layerId in
  if bool_decide (0 < length layerErrors)%nat
  then Some (Js.join " | " (Errors.message <$> layerErrors))
  else None.

End Layers.

(** ** Uploads in flight: the callbacks of the [uploadFile] mutation *)

Module Transfer.

Import Upload.

(** What a timer does when it fires. *)
Inductive Task :=
| Prune (fileId : string)            (* drop the entry from the queue *)
| Navigate (path : string)           (* go to the new child map *)
| InvalidateMap.                     (* refresh the current map data *)

Record Timer := { due : Z; task : Task }.

Record State := {
  queue : list UploadingFile;
  toasts : list string;
  timers : list Timer;
  projectInvalidations : nat;
  mapInvalidations : nat;
  navigations : list string;
}.

(** The response of the upload endpoint. *)
Record Response := { layer_name : string; dag_child_map_id : option string }.

Definition setQueue (f : list UploadingFile → list UploadingFile) (s : State) : State :=
  {| queue := f (queue s); toasts := toasts s; timers := timers s;
     projectInvalidations := projectInvalidations s;
     mapInvalidations := mapInvalidations s; navigations := navigations s |}.

Definition setTimeout (t : Timer) (s : State) : State :=
  {| queue := queue s; toasts := toasts s; timers := timers s ++ [t];
     projectInvalidations := projectInvalidations s;
     mapInvalidations := mapInvalidations s; navigations := navigations s |}.

Definition toast (msg : string) (s : State) : State :=
  {| queue := queue s; toasts := toasts s ++ [msg]; timers := timers s;
     projectInvalidations := projectInvalidations s;
     mapInvalidations := mapInvalidations s; navigations := navigations s |}.

Definition invalidateProject (s : State) : State :=
  {| queue := queue s; toasts := toasts s; timers := timers s;
     projectInvalidations := S (projectInvalidations s);
     mapInvalidations := mapInvalidations s; navigations := navigations s |}.

(** The three updaters given to [setUploadingFiles] with [prev.map]. *)
Definition withProgress (fileId : string) (p : Z) (f : UploadingFile) : UploadingFile :=
  if bool_decide (id f = fileId)
  then {| id := id f; file := file f; progress := p; status := status f; error := error f |}
  else f.

Definition asCompleted (fileId : string) (f : UploadingFile) : UploadingFile :=
  if bool_decide (id f = fileId)
  then {| id := id f; file := file f; progress := 100; status := "completed";
          error := error f |}
  else f.

Definition asError (fileId : string) (errorMessage : string) (f : UploadingFile)
    : UploadingFile :=
  if bool_decide (id f = fileId)
  then {| id := id f; file := file f; progress := progress f; status := "error";
          error := Some errorMessage |}
  else f.

(** The progress listener, lines 359-364; [p] is the rounded percentage. *)
Definition onProgress (lengthComputable : bool) (fileId : string) (p : Z)
    (s : State) : State :=
  if lengthComputable then setQueue (fmap (withProgress fileId p)) s else s.

(** [onSuccess], lines 398-423. *)
Definition onSuccess (now : Z) (projectId : string) (response : Response)
    (fileId : string) (s : State) : State :=
  let s1 := toast ("Layer " +:+ quote +:+ layer_name response +:+ quote +:+
                   " uploaded successfully! Navigating to new map...") s in
  let s2 := setQueue (fmap (asCompleted fileId)) s1 in
  let s3 := setTimeout {| due := (now + 2000)%Z; task := Prune fileId |} s2 in
  let s4 := invalidateProject s3 in
  if Js.truthy_string (dag_child_map_id response) then
    setTimeout {| due := (now + 1000)%Z;
                  task := Navigate ("/project/" +:+ projectId +:+ "/" +:+
                                    default "" (dag_child_map_id response)) |} s4
  else
    setTimeout {| due := (now + 2000)%Z; task := InvalidateMap |} s4.

(** [onError], lines 424-433. *)
Definition onError (now : Z) (errorMessage : string) (f : File) (fileId : string)
    (s : State) : State :=
  let s1 := setQueue (fmap (asError fileId errorMessage)) s in
  let s2 := toast ("Error uploading " +:+ name f +:+ ": " +:+ errorMessage) s1 in
  setTimeout {| due := (now + 5000)%Z; task := Prune fileId |} s2.

Definition runTask (t : Task) (s : State) : State :=
  match t with
  | Prune fileId => setQueue (filter (fun f => id f ≠ fileId)) s
  | Navigate path =>
      {| queue := queue s; toasts := toasts s; timers := timers s;
         projectInvalidations := projectInvalidations s;
         mapInvalidations := mapInvalidations s;
         navigations := navigations s ++ [path] |}
  | InvalidateMap =>
      {| queue := queue s; toasts := toasts s; timers := timers s;
         projectInvalidations := projectInvalidations s;
         mapInvalidations := S (mapInvalidations s);
         navigations := navigations s |}
  end.

(** Time reaches [t]: the timers that are due fire, in scheduling order. *)
Definition advance (t : Z) (s : State) : State :=
  let fired := filter (fun tm => (due tm <= t)%Z) (timers s) in
  let s' := {| queue := queue s; toasts := toasts s;
               timers := filter (fun tm => ¬ (due tm <= t)%Z) (timers s);
               projectInvalidations := projectInvalidations s;
               mapInvalidations := mapInvalidations s;
               navigations := navigations s |} in
  foldl (fun st tm => runTask (task tm) st) s' fired.

End Transfer.

(** ** Polling of the sources while a connection is being documented *)

Module Polling.

Import Sources.



(** The line under the progress bar, lines 614-618 of [LayerList]. *)
Definition phaseDetail (connection : PostgresConnectionDetails) : string :=
  let processed := default 0%Z (processed_tables_count connection) in
  let total := default 0%Z (table_count connection) in
  let isConnecting := bool_decide (processed = 0%Z) && bool_decide (total = 0%Z) in
  if isConnecting then "Connecting..."
  else if bool_decide (processed < total)%Z then "Understanding feature attributes..."
  else "Takes about 30 seconds...".

End Polling.

(** ** Tab visibility and the decision to keep the socket open *)

Module Visibility.

(** 10 minutes *)
Definition WS_REMAIN_OPEN_FOR_MS : Z := 10 * 60 * 1000.

(** The two state variables, the timer handle kept in [hiddenTimerRef], and
    the browser's pending timeouts with the next handle it will give out. *)
Record State := {
  isTabVisible : bool;
  hiddenTimeoutExpired : bool;
  hiddenTimerRef : option nat;
  timers : list (nat * Z);
  nextHandle : nat;
}.

Definition initial (visible : bool) : State :=
  {| isTabVisible := visible; hiddenTimeoutExpired := false;
     hiddenTimerRef := None; timers := []; nextHandle := 1 |}.

Definition clearTimeout (h : nat) (ts : list (nat * Z)) : list (nat * Z) :=
  filter (fun t => t.1 ≠ h) ts.

(** [handleVisibilityChange], lines 229-244; [visibilityState] is
    [document.visibilityState] and [now] the time of the event. *)
Definition handleVisibilityChange (now : Z) (visibilityState : string) (s : State)
    : State :=
  if bool_decide (visibilityState = "visible") then
    {| isTabVisible := true;
       hiddenTimeoutExpired := false;
       hiddenTimerRef := None;
       timers := match hiddenTimerRef s with
                 | Some h => clearTimeout h (timers s)
                 | None => timers s
                 end;
       nextHandle := nextHandle s |}
  else
    {| isTabVisible := false;
       hiddenTimeoutExpired := hiddenTimeoutExpired s;
       hiddenTimerRef := Some (nextHandle s);
       timers := timers s ++ [(nextHandle s, (now + WS_REMAIN_OPEN_FOR_MS)%Z)];
       nextHandle := S (nextHandle s) |}.

(** Time reaches [t]: each due timeout runs its callback, which sets
    [hiddenTimeoutExpired] and forgets the handle. *)
Definition advance (t : Z) (s : State) : State :=
  if bool_decide (Exists (fun tm => (tm.2 <= t)%Z) (timers s)) then
    {| isTabVisible := isTabVisible s;
       hiddenTimeoutExpired := true;
       hiddenTimerRef := None;
       timers := filter (fun tm => ¬ (tm.2 <= t)%Z) (timers s);
       nextHandle := nextHandle s |}
  else s.

(** [shouldConnect], line 255. *)
Definition shouldConnect (conversationId : option Z) (s : State) : bool :=
  bool_decide (conversationId ≠ None)
  && (isTabVisible s || negb (hiddenTimeoutExpired s)).

End Visibility.

(** ** The list of maps: pagination and the age of a project *)

Module MapsList.

(** [getVisiblePages], lines 38-56. *)
Definition getVisiblePages (totalPages currentPage : Z) : list Z :=
  let maxVisible := 5%Z in
  if (totalPages <=? maxVisible)%Z then seqZ 1 totalPages
  else
    let start := Z.max 1 (currentPage - 2) in
    let end_ := Z.min totalPages (currentPage + 2) in
    seqZ start (end_ - start + 1).

(** [renderPagination] shows nothing for a single page. *)
Definition renderPagination (totalPages currentPage : Z) : option (list Z) :=
  if (totalPages <=? 1)%Z then None else Some (getVisiblePages totalPages currentPage).

(** The click handlers of the previous and next links. *)
Definition previousPage (currentPage : Z) : Z :=
  if (1 <? currentPage)%Z then (currentPage - 1)%Z else currentPage.

Definition nextPage (totalPages currentPage : Z) : Z :=
  if (currentPage <? totalPages)%Z then (currentPage + 1)%Z else currentPage.

(** The value and unit given to [Intl.RelativeTimeFormat], computed from
    [diffMs = now - lastEdited] in milliseconds. *)
Definition lastEditedAge (diffMs : Z) : Z * string :=
  let diffSec := (diffMs / 1000)%Z in
  let diffMin := (diffSec / 60)%Z in
  let diffHour := (diffMin / 60)%Z in
  let diffDay := (diffHour / 24)%Z in
  if (diffSec <? 60)%Z then ((- diffSec)%Z, "second")
  else if (diffMin <? 60)%Z then ((- diffMin)%Z, "minute")
  else if (diffHour <? 24)%Z then ((- diffHour)%Z, "hour")
  else ((- diffDay)%Z, "day").

End MapsList.

(** ** Concrete scenarios used to exercise the model *)

Module Scenario.

Import Js Reconciler.

Definition clock0 : Errors.Clock :=
  {| Errors.now := 1730000000000%Z; Errors.random := "k3j9x2m1q" |}.

Definition clock1 : Errors.Clock :=
  {| Errors.now := 1730000004000%Z; Errors.random := "p0o9i8u7y" |}.

(** A map whose view currently shows [-20, -10, 20, 10]. *)
Definition view0 : MapHandle :=
  {| getBounds := {| getWest := (-20)%Q; getSouth := (-10)%Q;
                     getEast := 20%Q; getNorth := 10%Q |} |}.

Definition boundsV : list number := [-20; -10; 20; 10]%Q.
Definition boundsA : list number := [1; 1; 2; 2]%Q.
Definition boundsB : list number := [3; 3; 4; 4]%Q.
Definition boundsC : list number := [5; 5; 6; 6]%Q.
Definition boundsD : list number := [0; 0; 10; 10]%Q.

Definition env0 : Env := {| mapRef := Some view0; clock := clock0 |}.
Definition env1 : Env := {| mapRef := Some view0; clock := clock1 |}.
Definition env_nomap : Env := {| mapRef := None; clock := clock0 |}.

(** {ephemeral:true, status:"active", action_id:"a1", bounds:[0,0,10,10]} *)
Definition a1_active : EphemeralAction :=
  {| action_id := "a1"; status := "active"; layer_id := None;
     bounds := Some boundsD; error_message := None; updates := None |}.

(** {ephemeral:true, status:"completed", action_id:"a1", updates:{style_json:{}}} *)
Definition a1_completed : EphemeralAction :=
  {| action_id := "a1"; status := "completed"; layer_id := None;
     bounds := None; error_message := None;
     updates := Some {| style_json := Object [] |} |}.

(** History [A,B,C] with the index on A. *)
Definition state_ABC : State :=
  {| ui := Errors.empty;
     activeActions := [];
     zoomHistory := [{| entry_bounds := boundsA |}; {| entry_bounds := boundsB |};
                     {| entry_bounds := boundsC |}];
     zoomHistoryIndex := 0%Z;
     processedBoundsActionIds := ∅;
     fitBoundsCalls := [];
     invalidateMapDataCalls := 0 |}.

(** The same action announced as failed: an error notification. *)
Definition a1_failing : EphemeralAction :=
  {| action_id := "a1"; status := "active"; layer_id := None;
     bounds := Some boundsD; error_message := Some "Layer styling failed";
     updates := None |}.

(** A "completed" event that still carries the bounds of its action. *)
Definition a1_completed_bounds : EphemeralAction :=
  {| action_id := "a1"; status := "completed"; layer_id := None;
     bounds := Some boundsD; error_message := None;
     updates := Some {| style_json := Undefined |} |}.

(** A "completed" event without [updates]. *)
Definition a1_completed_bare : EphemeralAction :=
  {| action_id := "a1"; status := "completed"; layer_id := None;
     bounds := None; error_message := None; updates := None |}.

(** A failed completion without [updates]. *)
Definition a1_completed_failing : EphemeralAction :=
  {| action_id := "a1"; status := "completed"; layer_id := None;
     bounds := None; error_message := Some "Layer styling failed";
     updates := None |}.

(** The state once "a1" has zoomed and is shown as active. *)
Definition state_seen : State :=
  {| ui := Errors.empty;
     activeActions := [a1_active];
     zoomHistory := [{| entry_bounds := boundsV |}; {| entry_bounds := boundsD |}];
     zoomHistoryIndex := 1%Z;
     processedBoundsActionIds := {["a1"]};
     fitBoundsCalls := [{| southwest := (0, 0)%Q; northeast := (10, 10)%Q;
                           animate := true; padding := Some 50%Z |}];
     invalidateMapDataCalls := 0 |}.

(** A 600MB and a 10MB file. *)
Definition bigFile : Upload.File :=
  {| Upload.name := "big.tif"; Upload.size := 600 * 1024 * 1024 |}.
Definition smallFile : Upload.File :=
  {| Upload.name := "small.geojson"; Upload.size := 10 * 1024 * 1024 |}.

(** A connection with 3 of its 12 tables processed. *)
Definition querying : Sources.PostgresConnectionDetails :=
  {| Sources.connection_id := "c1"; Sources.friendly_name := None;
     Sources.last_error_text := None; Sources.is_documented := false;
     Sources.processed_tables_count := Some 3%Z;
     Sources.table_count := Some 12%Z |}.

End Scenario.

(** * Properties *)

(** ** Zoom history *)

Section ZoomHistory.

Import Js Reconciler.

Lemma slice0_take {A} (i : Z) (l : list A) :
  (-1 <= i)%Z → slice0 (i + 1) l = take (Z.to_nat (i + 1)) l.
Proof.
  intros Hi. unfold slice0.
  destruct (Z.ltb_spec (i + 1) 0) as [Hneg | Hpos]; [lia |].
  destruct (Z.min_spec (i + 1) (Z.of_nat (length l))) as [[Hlt ->] | [Hge ->]].
  - reflexivity.
  - rewrite Nat2Z.id.
    rewrite !take_ge; [reflexivity | lia | lia].
Qed.

Lemma zoomRequest_active env action m b :
  zoomRequest env action = Some (m, b) →
  bounds action = Some b ∧ mapRef env = Some m ∧
  length b = 4%nat ∧ status action = "active".
Proof.
  unfold zoomRequest.
  destruct (bounds action) as [b' |]; [| discriminate].
  destruct (mapRef env) as [m' |]; [| discriminate].
  destruct (bool_decide (length b' = 4%nat)) eqn:Hlen; [| discriminate].
  destruct (bool_decide (status action = "active")) eqn:Hst; [| discriminate].
  simpl. intros [= <- <-].
  apply bool_decide_eq_true in Hlen, Hst. auto.
Qed.

Lemma zoomRequest_intro env action m b :
  status action = "active" → bounds action = Some b → length b = 4%nat →
  mapRef env = Some m →
  zoomRequest env action = Some (m, b).
Proof.
  intros Hst Hb Hlen Hmap. unfold zoomRequest. rewrite Hb, Hmap.
  rewrite !bool_decide_eq_true_2 by assumption. reflexivity.
Qed.

(** The state after an event that zooms: the zoom, then the append to the
    active actions. *)
Lemma processMessage_zoom env action m b s :
  truthy_string (error_message action) = false →
  zoomRequest env action = Some (m, b) →
  action_id action ∉ processedBoundsActionIds s →
  processMessage env (Ephemeral action) s =
  setActiveActions (fun prev => prev ++ [action]) (zoomTo m action b s).
Proof.
  intros Herr Hreq Hfresh.
  destruct (zoomRequest_active _ _ _ _ Hreq) as (_ & _ & _ & Hst).
  unfold processMessage, tryBody. rewrite Herr, Hreq.
  rewrite bool_decide_eq_false_2 by assumption.
  unfold trackAction. rewrite bool_decide_eq_true_2 by assumption.
  reflexivity.
Qed.

(** C1 (as the code has it). A push cuts the history after the current index
    and appends two entries, the view's bounds before the zoom and the target:
    from [A,B,C] at index 0, pushing D while the view shows V gives [A,V,D]
    at index 2. *)
Theorem push_discards_forward_entries env action m target s :
  status action = "active" →
  bounds action = Some target →
  length target = 4%nat →
  mapRef env = Some m →
  truthy_string (error_message action) = false →
  action_id action ∉ processedBoundsActionIds s →
  (-1 <= zoomHistoryIndex s)%Z →
  let view := {| entry_bounds :=
                   [getWest (getBounds m); getSouth (getBounds m);
                    getEast (getBounds m); getNorth (getBounds m)] |} in
  let pushed := {| entry_bounds := target |} in
  let s' := processMessage env (Ephemeral action) s in
  zoomHistory s' =
    take (Z.to_nat (zoomHistoryIndex s + 1)) (zoomHistory s) ++ [view; pushed]
  ∧ zoomHistoryIndex s' = (zoomHistoryIndex s + 2)%Z
  ∧ (∀ A B C, zoomHistory s = [A; B; C] → zoomHistoryIndex s = 0%Z →
       zoomHistory s' = [A; view; pushed] ∧ zoomHistoryIndex s' = 2%Z).
Proof.
  intros Hst Hb Hlen Hmap Herr Hfresh Hidx view pushed s'.
  assert (Hreq : zoomRequest env action = Some (m, target))
    by (apply zoomRequest_intro; assumption).
  assert (Hs' : s' = setActiveActions (fun prev => prev ++ [action])
                       (zoomTo m action target s))
    by (apply processMessage_zoom; assumption).
  assert (Hhist : zoomHistory s' =
            take (Z.to_nat (zoomHistoryIndex s + 1)) (zoomHistory s) ++ [view; pushed]).
  { rewrite Hs'. simpl. rewrite slice0_take by assumption. reflexivity. }
  assert (Hi : zoomHistoryIndex s' = (zoomHistoryIndex s + 2)%Z)
    by (rewrite Hs'; reflexivity).
  split; [exact Hhist |]. split; [exact Hi |].
  intros A B C HABC H0. rewrite Hhist, Hi, HABC, H0. split; reflexivity.
Qed.

End ZoomHistory.

Section ZoomHistoryExamples.

Import Js Reconciler Scenario.

(** C1, witness: the push of D onto [A,B,C] at index 0. *)
Lemma push_discards_forward_entries_witness :
  zoomHistory (processMessage env0 (Ephemeral a1_active) state_ABC) =
    [{| entry_bounds := boundsA |}; {| entry_bounds := boundsV |};
     {| entry_bounds := boundsD |}]
  ∧ zoomHistoryIndex (processMessage env0 (Ephemeral a1_active) state_ABC) = 2%Z.
Proof.
  assert (Hfresh : action_id a1_active ∉ processedBoundsActionIds state_ABC)
    by apply not_elem_of_empty.
  assert (Hidx : (-1 <= zoomHistoryIndex state_ABC)%Z) by (simpl; lia).
  destruct (push_discards_forward_entries env0 a1_active view0 boundsD state_ABC
              eq_refl eq_refl eq_refl eq_refl eq_refl Hfresh Hidx) as (_ & _ & H).
  exact (H _ _ _ eq_refl eq_refl).
Defined.

(** C1, counterexample: from [A,B,C] at index 0 the push of D does not give
    [A,D] at index 1; the history becomes [A,V,D] and the index 2. *)
Lemma push_keeps_previous_view :
  let s' := processMessage env0 (Ephemeral a1_active) state_ABC in
  zoomHistory s' =
    [{| entry_bounds := boundsA |}; {| entry_bounds := boundsV |};
     {| entry_bounds := boundsD |}]
  ∧ zoomHistoryIndex s' = 2%Z
  ∧ ¬ (zoomHistory s' = [{| entry_bounds := boundsA |}; {| entry_bounds := boundsD |}]
       ∧ zoomHistoryIndex s' = 1%Z).
Proof.
  assert (H : zoomHistoryIndex (processMessage env0 (Ephemeral a1_active) state_ABC) = 2%Z)
    by (vm_compute; reflexivity).
  split; [vm_compute; reflexivity |]. split; [exact H |].
  intros [_ H1]. rewrite H in H1. discriminate H1.
Qed.

End ZoomHistoryExamples.

(** ** The idempotence guard of the zoom *)

Section ZoomGuard.

Import Js Reconciler.

Lemma addError_zoomState env msg override s :
  zoomState (addError env msg override s) = zoomState s.
Proof. reflexivity. Qed.

Lemma trackAction_zoomState action s :
  match trackAction action s with
  | Finished s' | Threw s' => zoomState s' = zoomState s
  end.
Proof.
  unfold trackAction.
  repeat case_bool_decide; try reflexivity.
  destruct (updates action) as [u |]; [| reflexivity].
  destruct (truthy (style_json u)); reflexivity.
Qed.

Lemma finish_zoomState env c s0 :
  match c with Finished s' | Threw s' => zoomState s' = zoomState s0 end →
  zoomState (match c with
             | Finished s' => s'
             | Threw s' => addError env GENERIC_ERROR false s'
             end) = zoomState s0.
Proof. destruct c; intros H; [exact H | rewrite addError_zoomState; exact H]. Qed.

(** A run of the effect either leaves the zoom state alone or is the zoom of
    a fresh action id. *)
Lemma processMessage_cases env msg s :
  zoomState (processMessage env msg s) = zoomState s
  ∨ ∃ action m b,
      msg = Ephemeral action
      ∧ truthy_string (error_message action) = false
      ∧ zoomRequest env action = Some (m, b)
      ∧ (action_id action ∉ processedBoundsActionIds s)
      ∧ processMessage env msg s =
        setActiveActions (fun prev => prev ++ [action]) (zoomTo m action b s).
Proof.
  destruct msg as [| | action].
  - left. reflexivity.
  - left. reflexivity.
  - destruct (truthy_string (error_message action)) eqn:Herr.
    { left. unfold processMessage, tryBody. rewrite Herr. reflexivity. }
    destruct (zoomRequest env action) as [[m b] |] eqn:Hreq.
    + destruct (decide (action_id action ∈ processedBoundsActionIds s)) as [Hin | Hout].
      * left. unfold processMessage, tryBody. rewrite Herr, Hreq.
        rewrite bool_decide_eq_true_2 by assumption. reflexivity.
      * right. exists action, m, b. repeat split; try assumption.
        apply processMessage_zoom; assumption.
    + left. unfold processMessage, tryBody. rewrite Herr, Hreq.
      apply finish_zoomState, trackAction_zoomState.
Qed.

(** An event whose action id has already triggered a zoom, and which meets
    the zoom condition again, is dropped whole. *)
Lemma processMessage_guard_hit env action m b s :
  truthy_string (error_message action) = false →
  zoomRequest env action = Some (m, b) →
  action_id action ∈ processedBoundsActionIds s →
  processMessage env (Ephemeral action) s = s.
Proof.
  intros Herr Hreq Hin. unfold processMessage, tryBody. rewrite Herr, Hreq.
  rewrite bool_decide_eq_true_2 by assumption. reflexivity.
Qed.

(** With the id on record, no event of that action zooms. *)
Lemma processMessage_recorded env action s :
  action_id action ∈ processedBoundsActionIds s →
  zoomState (processMessage env (Ephemeral action) s) = zoomState s.
Proof.
  intros Hin.
  destruct (processMessage_cases env (Ephemeral action) s)
    as [H | (a & m & b & Heq & _ & _ & Hout & _)]; [exact H |].
  injection Heq as <-. contradiction.
Qed.

(** The second run React makes after the index has moved finds the id on
    record and does nothing: a delivered message is handled once. *)
Lemma deliver_processMessage env msg s :
  deliver env msg s = processMessage env msg s.
Proof.
  unfold deliver. case_bool_decide as Hidx; [reflexivity |].
  destruct (processMessage_cases env msg s)
    as [H | (action & m & b & -> & Herr & Hreq & Hout & Heq)].
  - exfalso. apply Hidx. unfold zoomState in H. congruence.
  - rewrite Heq. apply processMessage_guard_hit with m b; [assumption .. |].
    simpl. set_solver.
Qed.

(** C9 (as the code has it). An event with status "active", four-element
    bounds, a map handle, an action id already on record and no
    [error_message] changes no state at all; in particular it is not appended
    to the active actions. *)
Theorem recorded_action_is_dropped env action m b s :
  status action = "active" →
  bounds action = Some b →
  length b = 4%nat →
  mapRef env = Some m →
  action_id action ∈ processedBoundsActionIds s →
  truthy_string (error_message action) = false →
  processMessage env (Ephemeral action) s = s
  ∧ deliver env (Ephemeral action) s = s
  ∧ activeActions (processMessage env (Ephemeral action) s) = activeActions s.
Proof.
  intros Hst Hb Hlen Hmap Hin Herr.
  assert (Hreq : zoomRequest env action = Some (m, b))
    by (apply zoomRequest_intro; assumption).
  assert (H : processMessage env (Ephemeral action) s = s)
    by (apply processMessage_guard_hit with m b; assumption).
  rewrite deliver_processMessage, H. auto.
Qed.

(** C2 (as the code has it). Of two events with the same action id, when the
    first has status "active", carries valid bounds and no [error_message]
    and is handled while a map handle is available, the second leaves the
    zoom history, its index and the map view untouched; the first zooms
    exactly once if the id had not zoomed before. *)
Theorem same_action_zooms_once env1 env2 first second m b s :
  action_id first = action_id second →
  status first = "active" →
  bounds first = Some b →
  length b = 4%nat →
  mapRef env1 = Some m →
  truthy_string (error_message first) = false →
  let s1 := deliver env1 (Ephemeral first) s in
  let s2 := deliver env2 (Ephemeral second) s1 in
  zoomHistory s2 = zoomHistory s1
  ∧ zoomHistoryIndex s2 = zoomHistoryIndex s1
  ∧ fitBoundsCalls s2 = fitBoundsCalls s1
  ∧ (action_id first ∉ processedBoundsActionIds s →
       length (fitBoundsCalls s1) = S (length (fitBoundsCalls s))
       ∧ zoomHistoryIndex s1 = (zoomHistoryIndex s + 2)%Z
       ∧ length (fitBoundsCalls s2) = S (length (fitBoundsCalls s))).
Proof.
  intros Hid Hst Hb Hlen4 Hmap Herr s1 s2.
  assert (Hreq : zoomRequest env1 first = Some (m, b))
    by (apply zoomRequest_intro; assumption).
  subst s1 s2. rewrite !deliver_processMessage.
  set (s1 := processMessage env1 (Ephemeral first) s).
  assert (Hrec : action_id second ∈ processedBoundsActionIds s1).
  { rewrite <- Hid. subst s1.
    destruct (decide (action_id first ∈ processedBoundsActionIds s)) as [Hin | Hout].
    - rewrite processMessage_guard_hit with (m := m) (b := b); assumption.
    - rewrite processMessage_zoom with (m := m) (b := b) by assumption.
      simpl. set_solver. }
  pose proof (processMessage_recorded env2 second s1 Hrec) as Hframe.
  unfold zoomState in Hframe. injection Hframe as Hh Hi Hf _.
  repeat split; try assumption.
  - subst s1. rewrite processMessage_zoom with (m := m) (b := b) by assumption.
    destruct (zoomRequest_active _ _ _ _ Hreq) as (_ & _ & Hlen & _).
    destruct b as [| w [| so [| e [| n [| ? ?]]]]]; try discriminate Hlen.
    simpl. rewrite length_app. simpl. lia.
  - subst s1. rewrite processMessage_zoom with (m := m) (b := b) by assumption.
    reflexivity.
  - rewrite Hf. subst s1.
    rewrite processMessage_zoom with (m := m) (b := b) by assumption.
    destruct (zoomRequest_active _ _ _ _ Hreq) as (_ & _ & Hlen & _).
    destruct b as [| w [| so [| e [| n [| ? ?]]]]]; try discriminate Hlen.
    simpl. rewrite length_app. simpl. lia.
Qed.

End ZoomGuard.

Section ZoomGuardExamples.

Import Js Reconciler Scenario.

(** C9, witness: "a1" has zoomed and its "active" event arrives again. *)
Lemma recorded_action_is_dropped_witness :
  processMessage env1 (Ephemeral a1_active) state_seen = state_seen
  ∧ deliver env1 (Ephemeral a1_active) state_seen = state_seen
  ∧ activeActions (processMessage env1 (Ephemeral a1_active) state_seen) = [a1_active].
Proof.
  assert (Hin : action_id a1_active ∈ processedBoundsActionIds state_seen)
    by (simpl; set_solver).
  exact (recorded_action_is_dropped env1 a1_active view0 boundsD state_seen
           eq_refl eq_refl eq_refl eq_refl Hin eq_refl).
Defined.

(** C9, counterexample: an event that meets every condition of the claim and
    also carries an [error_message] adds an error entry. *)
Lemma recorded_action_with_error_changes_state :
  let s' := processMessage env1 (Ephemeral a1_failing) state_seen in
  status a1_failing = "active"
  ∧ bounds a1_failing = Some boundsD
  ∧ length boundsD = 4%nat
  ∧ mapRef env1 = Some view0
  ∧ action_id a1_failing ∈ processedBoundsActionIds state_seen
  ∧ Errors.errors (ui state_seen) = []
  ∧ Errors.message <$> Errors.errors (ui s') = ["Layer styling failed"]
  ∧ s' ≠ state_seen.
Proof.
  assert (H : Errors.message <$>
              Errors.errors (ui (processMessage env1 (Ephemeral a1_failing) state_seen))
              = ["Layer styling failed"]) by (vm_compute; reflexivity).
  repeat split; try reflexivity; try exact H.
  intros Heq. rewrite Heq in H. discriminate H.
Qed.

(** C2, witness: the "active" event of "a1" delivered twice. *)
Lemma same_action_zooms_once_witness :
  let s1 := deliver env0 (Ephemeral a1_active) initial in
  let s2 := deliver env1 (Ephemeral a1_active) s1 in
  zoomHistory s2 = zoomHistory s1
  ∧ zoomHistoryIndex s2 = zoomHistoryIndex s1
  ∧ fitBoundsCalls s2 = fitBoundsCalls s1.
Proof.
  destruct (same_action_zooms_once env0 env1 a1_active a1_active view0 boundsD initial
              eq_refl eq_refl eq_refl eq_refl eq_refl eq_refl) as (H1 & H2 & H3 & _).
  exact (conj H1 (conj H2 H3)).
Defined.

(** C2, counterexample: two events with the same action id and valid bounds,
    the first with status "completed"; it is the second that zooms. *)
Lemma second_event_zooms_after_completed :
  let s1 := deliver env0 (Ephemeral a1_completed_bounds) initial in
  let s2 := deliver env1 (Ephemeral a1_active) s1 in
  action_id a1_completed_bounds = action_id a1_active
  ∧ bounds a1_completed_bounds = Some boundsD
  ∧ bounds a1_active = Some boundsD
  ∧ length boundsD = 4%nat
  ∧ zoomHistory s1 = [] ∧ zoomHistoryIndex s1 = (-1)%Z ∧ fitBoundsCalls s1 = []
  ∧ zoomHistory s2 = [{| entry_bounds := boundsV |}; {| entry_bounds := boundsD |}]
  ∧ zoomHistoryIndex s2 = 1%Z
  ∧ fitBoundsCalls s2 = [{| southwest := (0, 0)%Q; northeast := (10, 10)%Q;
                            animate := true; padding := Some 50%Z |}].
Proof. repeat split; vm_compute; reflexivity. Qed.

End ZoomGuardExamples.

(** ** The active-actions list *)

Section ActiveActions.

Import Js Reconciler.

Lemma trackAction_activeActions action s :
  match trackAction action s with
  | Finished s' | Threw s' =>
      (status action = "active" ∧ activeActions s' = activeActions s ++ [action])
      ∨ (status action = "completed" ∧
         activeActions s' =
           filter (fun a => action_id a ≠ action_id action) (activeActions s))
      ∨ activeActions s' = activeActions s
  end.
Proof.
  unfold trackAction.
  case_bool_decide as Hact; [left; auto |].
  case_bool_decide as Hdone; [| right; right; reflexivity].
  destruct (updates action) as [u |]; [destruct (truthy (style_json u)) |];
    right; left; auto.
Qed.

(** What one run of the effect does to the list: nothing, an append of an
    "active" action, or the removal of a "completed" one. *)
Lemma processMessage_activeActions env msg s :
  let s' := processMessage env msg s in
  activeActions s' = activeActions s
  ∨ (∃ a, msg = Ephemeral a ∧ status a = "active"
          ∧ activeActions s' = activeActions s ++ [a])
  ∨ (∃ a, msg = Ephemeral a ∧ status a = "completed"
          ∧ activeActions s' =
            filter (fun x => action_id x ≠ action_id a) (activeActions s)).
Proof.
  destruct (processMessage_cases env msg s)
    as [_ | (action & m & b & -> & Herr & Hreq & Hout & Heq)].
  - destruct msg as [| | action]; simpl; [left; reflexivity .. |].
    unfold processMessage, tryBody.
    destruct (truthy_string (error_message action)); [left; reflexivity |].
    destruct (zoomRequest env action) as [[m b] |].
    + case_bool_decide; [left; reflexivity |].
      pose proof (trackAction_activeActions action (zoomTo m action b s)) as Htrack.
      destruct (trackAction action (zoomTo m action b s)) as [s' | s'];
        simpl in *; destruct Htrack as [[? ?] | [[? ?] | ?]]; eauto 6.
    + pose proof (trackAction_activeActions action s) as Htrack.
      destruct (trackAction action s) as [s' | s'];
        simpl in *; destruct Htrack as [[? ?] | [[? ?] | ?]]; eauto 6.
  - simpl. right; left. exists action.
    destruct (zoomRequest_active _ _ _ _ Hreq) as (_ & _ & _ & Hst).
    rewrite Heq. auto.
Qed.





End ActiveActions.

Section StreamExamples.

Import Js Reconciler Scenario.


(** C4. From the empty state, with a map view available, the "active" event
    of "a1" with bounds [0,0,10,10] followed by its "completed" event with
    [updates.style_json = {}] zooms once, invalidates the map document once
    and leaves no active action. *)
Theorem active_then_completed_example (m : MapHandle) (c1 : Errors.Clock) (env2 : Env) :
  let s := run initial [({| mapRef := Some m; clock := c1 |}, Ephemeral a1_active);
                        (env2, Ephemeral a1_completed)] in
  fitBoundsCalls s = [{| southwest := (0, 0)%Q; northeast := (10, 10)%Q;
                         animate := true; padding := Some 50%Z |}]
  ∧ invalidateMapDataCalls s = 1%nat
  ∧ activeActions s = []
  ∧ zoomHistory s =
      [{| entry_bounds := [getWest (getBounds m); getSouth (getBounds m);
                           getEast (getBounds m); getNorth (getBounds m)] |};
       {| entry_bounds := boundsD |}]
  ∧ zoomHistoryIndex s = 1%Z
  ∧ Errors.errors (ui s) = [].
Proof.
  intros s. subst s. unfold run. simpl foldl.
  rewrite !deliver_processMessage.
  rewrite (processMessage_zoom _ a1_active m boundsD);
    [| reflexivity | reflexivity | apply not_elem_of_empty].
  repeat split; vm_compute; reflexivity.
Qed.

(** Without a map handle the same stream performs no zoom. *)
Lemma active_then_completed_without_map :
  let s := run initial [(env_nomap, Ephemeral a1_active);
                        (env_nomap, Ephemeral a1_completed)] in
  fitBoundsCalls s = [] ∧ zoomHistory s = [] ∧ invalidateMapDataCalls s = 1%nat
  ∧ activeActions s = [].
Proof. repeat split; vm_compute; reflexivity. Qed.

End StreamExamples.

(** ** Events the handler cannot process *)

Section Failures.

Import Js Reconciler.

(** C10 (as the code has it). A "completed" event without [updates] and
    without [error_message] still removes the matching action; reading
    [updates.style_json] then throws, the [catch] calls [addError] with the
    generic message instead of invalidating the map document, which adds one
    entry unless one with that message is still in the list; the next message
    is handled as usual. *)
Theorem completed_without_updates env action s :
  status action = "completed" →
  updates action = None →
  truthy_string (error_message action) = false →
  let s' := processMessage env (Ephemeral action) s in
  tryBody env (Ephemeral action) s =
    Threw (setActiveActions (filter (fun a => action_id a ≠ action_id action)) s)
  ∧ activeActions s' = filter (fun a => action_id a ≠ action_id action) (activeActions s)
  ∧ ui s' = Errors.addError (clock env) GENERIC_ERROR false None (ui s)
  ∧ invalidateMapDataCalls s' = invalidateMapDataCalls s
  ∧ (Errors.has_message GENERIC_ERROR (Errors.errors (ui s)) = false →
       ∃ e, Errors.errors (ui s') = Errors.errors (ui s) ++ [e]
            ∧ Errors.message e = GENERIC_ERROR
            ∧ Errors.shouldOverrideMessages e = false
            ∧ Errors.toasts (ui s') = Errors.toasts (ui s) ++ [GENERIC_ERROR])
  ∧ (Errors.has_message GENERIC_ERROR (Errors.errors (ui s)) = true →
       ui s' = ui s)
  ∧ (∀ env', invalidateMapDataCalls (processMessage env' Chat s') =
             S (invalidateMapDataCalls s)).
Proof.
  intros Hst Hupd Herr s'.
  assert (Hreq : zoomRequest env action = None).
  { unfold zoomRequest. destruct (bounds action); [| reflexivity].
    destruct (mapRef env); [| reflexivity].
    rewrite (bool_decide_eq_false_2 (status action = "active"))
      by (rewrite Hst; discriminate).
    rewrite andb_false_r. reflexivity. }
  assert (Hbody : tryBody env (Ephemeral action) s =
            Threw (setActiveActions (filter (fun a => action_id a ≠ action_id action)) s)).
  { unfold tryBody. rewrite Herr, Hreq. unfold trackAction.
    rewrite (bool_decide_eq_false_2 (status action = "active"))
      by (rewrite Hst; discriminate).
    rewrite bool_decide_eq_true_2 by assumption. rewrite Hupd. reflexivity. }
  assert (Hs' : s' = addError env GENERIC_ERROR false
                       (setActiveActions (filter (fun a => action_id a ≠ action_id action)) s)).
  { subst s'. unfold processMessage. rewrite Hbody. reflexivity. }
  split; [exact Hbody |]. rewrite Hs'. simpl.
  repeat split.
  - intros Hnew. unfold Errors.addError. rewrite Hnew. simpl. eauto.
  - intros Hold. unfold Errors.addError. rewrite Hold. reflexivity.
Qed.

End Failures.

Section FailureExamples.

Import Js Reconciler Scenario.

(** C10, witness: "a1" completes without [updates] while it is active. *)
Lemma completed_without_updates_witness :
  let s' := processMessage env1 (Ephemeral a1_completed_bare) state_seen in
  activeActions s' = []
  ∧ Errors.message <$> Errors.errors (ui s') = [GENERIC_ERROR]
  ∧ invalidateMapDataCalls s' = 0%nat.
Proof.
  destruct (completed_without_updates env1 a1_completed_bare state_seen
              eq_refl eq_refl eq_refl) as (_ & Hact & Hui & Hinv & _).
  cbv zeta. rewrite Hact, Hui, Hinv. repeat split.
Defined.

(** C10, counterexample: a "completed" event without [updates] that carries
    an [error_message] leaves the matching action in the list and adds no
    generic entry; and a second bare completion, while the generic entry of
    the first is still in the list, adds nothing. *)
Lemma completed_without_updates_exceptions :
  let s1 := processMessage env1 (Ephemeral a1_completed_failing) state_seen in
  let s2 := processMessage env0 (Ephemeral a1_completed_bare) state_seen in
  let s3 := processMessage env1 (Ephemeral a1_completed_bare) s2 in
  status a1_completed_failing = "completed"
  ∧ updates a1_completed_failing = None
  ∧ activeActions state_seen = [a1_active]
  ∧ activeActions s1 = [a1_active]
  ∧ Errors.message <$> Errors.errors (ui s1) = ["Layer styling failed"]
  ∧ Errors.message <$> Errors.errors (ui s2) = [GENERIC_ERROR]
  ∧ Errors.errors (ui s3) = Errors.errors (ui s2).
Proof. repeat split; vm_compute; reflexivity. Qed.

End FailureExamples.

(** ** The error list *)

Section ErrorList.

Import Errors.

Lemma has_message_true msg errs :
  has_message msg errs = true ↔ ∃ e, e ∈ errs ∧ message e = msg.
Proof.
  unfold has_message. rewrite existsb_exists. split.
  - intros (e & Hin & He). exists e. split; [apply list_elem_of_In, Hin |].
    apply bool_decide_eq_true in He. exact He.
  - intros (e & Hin & He). exists e. split; [apply list_elem_of_In, Hin |].
    apply bool_decide_eq_true. exact He.
Qed.

Lemma has_message_false msg errs :
  has_message msg errs = false ↔ msg ∉ (message <$> errs).
Proof.
  rewrite <- not_true_iff_false, has_message_true.
  split; intros H Hin; apply H.
  - apply list_elem_of_fmap in Hin as (e & -> & He). eauto.
  - destruct Hin as (e & He & <-). apply list_elem_of_fmap. eauto.
Qed.

(** Firing timers only ever removes entries. *)
Lemma fire_all_sublist tms errs :
  foldl (fun es tm => fire tm es) errs tms `sublist_of` errs.
Proof.
  revert errs. induction tms as [| tm tms IH]; intros errs; simpl; [reflexivity |].
  etransitivity; [apply IH | apply sublist_filter].
Qed.

(** An entry whose own timer is among those fired is gone. *)
Lemma fire_all_removes tms errs tm e :
  tm ∈ tms → id e = target tm →
  e ∉ foldl (fun es tm' => fire tm' es) errs tms.
Proof.
  revert errs. induction tms as [| tm' tms IH]; intros errs Hin Hid; simpl.
  { inversion Hin. }
  apply elem_of_cons in Hin as [<- | Hin].
  - intros He. eapply elem_of_sublist in He; [| apply fire_all_sublist].
    unfold fire in He. apply list_elem_of_filter in He as [Hne _]. contradiction.
  - apply IH; assumption.
Qed.

(** An entry that no fired timer targets stays. *)
Lemma fire_all_keeps tms errs e :
  e ∈ errs → (∀ tm, tm ∈ tms → target tm ≠ id e) →
  e ∈ foldl (fun es tm' => fire tm' es) errs tms.
Proof.
  revert errs. induction tms as [| tm tms IH]; intros errs He Hfree; simpl; [exact He |].
  apply IH.
  - unfold fire. apply list_elem_of_filter. split; [| exact He].
    intros Heq. apply (Hfree tm); [apply elem_of_cons; left; reflexivity | congruence].
  - intros tm' Htm'. apply Hfree. apply elem_of_cons. right. exact Htm'.
Qed.

(** No operation on the list creates a second entry with a message that is
    already there. *)
Lemma addError_NoDup c msg override source st :
  NoDup (message <$> errors st) →
  NoDup (message <$> errors (addError c msg override source st)).
Proof.
  intros Hnd. unfold addError.
  destruct (has_message msg (errors st)) eqn:Hhas; [exact Hnd |].
  simpl. rewrite fmap_app. apply NoDup_app. split; [exact Hnd |].
  split; [| apply NoDup_singleton].
  intros x Hx Hx'. apply list_elem_of_singleton in Hx'. subst x.
  apply has_message_false in Hhas. contradiction.
Qed.

Lemma dismissError_NoDup errorId st :
  NoDup (message <$> errors st) →
  NoDup (message <$> errors (dismissError errorId st)).
Proof.
  intros Hnd. eapply sublist_NoDup; [exact Hnd |].
  apply fmap_sublist, sublist_filter.
Qed.

Lemma advance_NoDup t st :
  NoDup (message <$> errors st) →
  NoDup (message <$> errors (advance t st)).
Proof.
  intros Hnd. eapply sublist_NoDup; [exact Hnd |].
  apply fmap_sublist, fire_all_sublist.
Qed.

(** C5. While an entry with message M is in the list, [addError M] changes
    nothing, so the list never holds M twice; a new entry gets a timer
    30000 ms ahead and is gone once that time is reached, re-triggered or
    not, and until then it stays unless another timer targets its id. *)
Theorem error_entries_dedup_and_expire c msg override source st :
  let st' := addError c msg override source st in
  (has_message msg (errors st) = true → st' = st)
  ∧ (NoDup (message <$> errors st) → NoDup (message <$> errors st'))
  ∧ (has_message msg (errors st) = false →
       ∃ e, errors st' = errors st ++ [e]
            ∧ message e = msg
            ∧ timers st' = timers st ++ [{| due := (now c + 30000)%Z; target := id e |}]
            ∧ (∀ t, (now c + 30000 <= t)%Z → e ∉ errors (advance t st'))
            ∧ (∀ t, (now c + 30000 <= t)%Z →
                 e ∉ errors (advance t (addError c msg override source st')))
            ∧ (∀ t, (t < now c + 30000)%Z →
                 (∀ tm, tm ∈ timers st → target tm ≠ id e) →
                 e ∈ errors (advance t st'))).
Proof.
  intros st'. split; [| split].
  - intros Hhas. subst st'. unfold addError. rewrite Hhas. reflexivity.
  - apply addError_NoDup.
  - intros Hhas.
    set (e := {| id := pretty (now c) +:+ random c; message := msg;
                 timestamp := now c; shouldOverrideMessages := override;
                 sourceId := source |}).
    assert (Hst' : st' =
      {| errors := errors st ++ [e];
         toasts := if override then toasts st else toasts st ++ [msg];
         timers := timers st ++ [{| due := (now c + 30000)%Z; target := id e |}] |}).
    { subst st'. unfold addError. rewrite Hhas. reflexivity. }
    assert (Hgone : ∀ t, (now c + 30000 <= t)%Z → e ∉ errors (advance t st')).
    { intros t Ht. rewrite Hst'. unfold advance. simpl errors. simpl timers.
      apply fire_all_removes with {| due := (now c + 30000)%Z; target := id e |};
        [| reflexivity].
      apply list_elem_of_filter. split; [exact Ht |].
      apply elem_of_app. right. apply list_elem_of_singleton. reflexivity. }
    exists e. split; [rewrite Hst'; reflexivity |]. split; [reflexivity |].
    split; [rewrite Hst'; reflexivity |]. split; [exact Hgone |]. split.
    + intros t Ht.
      assert (Hagain : addError c msg override source st' = st').
      { unfold addError.
        assert (Hnow : has_message msg (errors st') = true).
        { apply has_message_true. exists e. split; [| reflexivity].
          rewrite Hst'. simpl. apply elem_of_app. right.
          apply list_elem_of_singleton. reflexivity. }
        rewrite Hnow. reflexivity. }
      rewrite Hagain. apply Hgone. exact Ht.
    + intros t Ht Hfree. rewrite Hst'. unfold advance. simpl errors. simpl timers.
      apply fire_all_keeps.
      * apply elem_of_app. right. apply list_elem_of_singleton. reflexivity.
      * intros tm Htm. apply list_elem_of_filter in Htm as [Hdue Htm].
        apply elem_of_app in Htm as [Htm | Htm]; [apply Hfree; exact Htm |].
        apply list_elem_of_singleton in Htm. subst tm. simpl in Hdue. lia.
Qed.

End ErrorList.

(** ** The upload queue *)

Section UploadQueue.

Import Upload.

Lemma includes_append_r needle a b :
  Js.includes needle b = true → Js.includes needle (a +:+ b) = true.
Proof.
  intros H. induction a as [| ch a IH]; simpl; [exact H |].
  rewrite IH. apply orb_true_r.
Qed.

(** The notification that lists the permitted extensions is the one for
    files the dropzone refuses by type. *)
Lemma rejectedMessage_lists_extensions f :
  listsExtensions (rejectedMessage f) = true.
Proof.
  unfold listsExtensions, rejectedMessage.
  assert (Hall : forallb (fun ext => Js.includes ext (Js.join ", " allowedExtensions))
                   allowedExtensions = true) by (vm_compute; reflexivity).
  rewrite forallb_forall in Hall. apply forallb_forall. intros ext Hext.
  do 5 apply includes_append_r. apply Hall, Hext.
Qed.

Lemma toast_all (msg : File → string) fs s :
  foldl (fun st f => with_ui (Errors.toast_error (msg f)) st) s fs =
  {| ui := {| Errors.errors := Errors.errors (ui s);
              Errors.toasts := Errors.toasts (ui s) ++ (msg <$> fs);
              Errors.timers := Errors.timers (ui s) |};
     uploadingFiles := uploadingFiles s;
     mutations := mutations s |}.
Proof.
  revert s. induction fs as [| f fs IH]; intros [[errs tsts tms] ups muts]; simpl.
  - rewrite app_nil_r. reflexivity.
  - rewrite IH. simpl. rewrite <- app_assoc. reflexivity.
Qed.

Lemma newEntry_fresh stamp fs :
  Forall (fun f => ¬ tooLarge f) fs →
  ∀ k, Forall (fun u => progress u = 0%Z ∧ status u = "uploading" ∧ error u = None
                        ∧ (size (file u) <= maxFileSize)%Z)
         (imap (fun i => newEntry stamp (k + i)) fs).
Proof.
  induction 1 as [| f fs Hf _ IH]; intros k; simpl; constructor.
  - unfold tooLarge in Hf. simpl. repeat split. lia.
  - specialize (IH (S k)). erewrite imap_ext; [exact IH |].
    intros i x _. simpl. f_equal. lia.
Qed.

(** C6 (as the code has it). With a map version loaded, an accepted file
    over 500MB never enters the upload queue and is announced by exactly one
    toast, which says that the file is too large; the files at or under the
    limit enter the queue at progress 0 with status "uploading". The
    notification that lists the permitted extensions belongs to the files
    the dropzone refuses by type. *)
Theorem oversized_files_are_rejected versionId stamp acceptedFiles s :
  Js.truthy_string versionId = true →
  let s' := onDrop versionId stamp acceptedFiles s in
  let validFiles := filter (fun f => ¬ tooLarge f) acceptedFiles in
  uploadingFiles s' = uploadingFiles s ++ imap (newEntry stamp) validFiles
  ∧ Errors.toasts (ui s') =
      Errors.toasts (ui s) ++ (tooLargeMessage <$> filter tooLarge acceptedFiles)
  ∧ Errors.errors (ui s') = Errors.errors (ui s)
  ∧ Forall (fun u => progress u = 0%Z ∧ status u = "uploading" ∧ error u = None
                     ∧ (size (file u) <= maxFileSize)%Z)
      (imap (newEntry stamp) validFiles)
  ∧ (∀ f, acceptedFiles = [f] → tooLarge f →
       uploadingFiles s' = uploadingFiles s
       ∧ mutations s' = mutations s
       ∧ Errors.toasts (ui s') = Errors.toasts (ui s) ++ [tooLargeMessage f])
  ∧ (∀ f, acceptedFiles = [f] → ¬ tooLarge f →
       uploadingFiles s' = uploadingFiles s ++ [newEntry stamp 0 f]
       ∧ Errors.toasts (ui s') = Errors.toasts (ui s))
  ∧ (∀ f, Errors.has_message (rejectedMessage f) (Errors.errors (ui s)) = false →
       let r := onDropRejected stamp [f] s in
       uploadingFiles r = uploadingFiles s
       ∧ Errors.toasts (ui r) = Errors.toasts (ui s) ++ [rejectedMessage f]
       ∧ listsExtensions (rejectedMessage f) = true).
Proof.
  intros Hver s' validFiles.
  assert (Hs' : uploadingFiles s' = uploadingFiles s ++ imap (newEntry stamp) validFiles
                ∧ mutations s' = mutations s ++
                    ((fun u => (file u, id u)) <$> imap (newEntry stamp) validFiles)
                ∧ Errors.toasts (ui s') = Errors.toasts (ui s) ++
                    (tooLargeMessage <$> filter tooLarge acceptedFiles)
                ∧ Errors.errors (ui s') = Errors.errors (ui s)).
  { subst s' validFiles. unfold onDrop. rewrite Hver. simpl negb. simpl orb.
    case_bool_decide as Hlen.
    - destruct acceptedFiles; [| discriminate Hlen]. simpl.
      rewrite !app_nil_r. auto.
    - rewrite toast_all. case_bool_decide as Hvalid.
      + destruct (filter (fun f => ¬ tooLarge f) acceptedFiles); [| discriminate Hvalid].
        simpl. rewrite !app_nil_r. auto.
      + simpl. auto. }
  destruct Hs' as (Hup & Hmut & Htoast & Herrs).
  split; [exact Hup |]. split; [exact Htoast |]. split; [exact Herrs |].
  split; [| split; [| split]].
  - apply (newEntry_fresh stamp validFiles) with (k := 0%nat).
    subst validFiles. apply Forall_forall. intros f Hf.
    apply list_elem_of_filter in Hf as [Hf _]. exact Hf.
  - intros f -> Hbig. subst validFiles.
    rewrite Hup, Hmut, Htoast.
    rewrite !filter_cons, !filter_nil.
    destruct (decide (tooLarge f)) as [_ | Hno]; [| contradiction].
    destruct (decide (¬ tooLarge f)) as [Hno | _]; [contradiction |].
    simpl. rewrite !app_nil_r. auto.
  - intros f -> Hok. subst validFiles.
    rewrite Hup, Htoast.
    rewrite !filter_cons, !filter_nil.
    destruct (decide (tooLarge f)) as [Hno | _]; [contradiction |].
    destruct (decide (¬ tooLarge f)) as [_ | Hno]; [| contradiction].
    simpl. rewrite !app_nil_r. auto.
  - intros f Hnew r. subst r. unfold onDropRejected. simpl.
    unfold Errors.addError. rewrite Hnew. simpl.
    split; [reflexivity |]. split; [reflexivity |].
    apply rejectedMessage_lists_extensions.
Qed.

End UploadQueue.

Section UploadExamples.

Import Upload Scenario.

(** C6, witness: a 600MB and a 10MB file dropped together. *)
Lemma oversized_files_are_rejected_witness :
  let s' := onDrop (Some "v1") (fun _ => clock0) [bigFile; smallFile] initial in
  uploadingFiles s' = [newEntry (fun _ => clock0) 0 smallFile]
  ∧ Errors.toasts (ui s') = [tooLargeMessage bigFile].
Proof.
  destruct (oversized_files_are_rejected (Some "v1") (fun _ => clock0)
              [bigFile; smallFile] initial eq_refl) as (Hup & Htoast & _).
  exact (conj Hup Htoast).
Defined.

(** C6, counterexample: the one notification for a rejected 600MB file does
    not list the permitted extensions. *)
Lemma oversized_notification_omits_extensions :
  let s' := onDrop (Some "v1") (fun _ => clock0) [bigFile] initial in
  tooLarge bigFile
  ∧ uploadingFiles s' = []
  ∧ Errors.toasts (ui s') = [tooLargeMessage bigFile]
  ∧ forallb listsExtensions (Errors.toasts (ui s')) = false
  ∧ Js.includes ".geojson" (tooLargeMessage bigFile) = false.
Proof.
  split; [unfold tooLarge; simpl; unfold maxFileSize; lia |].
  repeat split; vm_compute; reflexivity.
Qed.

End UploadExamples.

(** ** External sources *)

Section SourcePhase.

Import Sources Scenario.

(** C7. A connection without [last_error_text] that is not yet documented is
    shown with the phase "Connecting..." when both counts are 0, "Querying
    tables..." when fewer tables are processed than there are, and
    "Summarizing..." otherwise. *)
Theorem phase_is_inferred_from_counts (connection : PostgresConnectionDetails) :
  Js.truthy_string (last_error_text connection) = false →
  is_documented connection = false →
  let processed := default 0%Z (processed_tables_count connection) in
  let total := default 0%Z (table_count connection) in
  sourceRow connection = ProgressRow (isSummarizing connection) (phaseLabel connection)
  ∧ (processed = 0%Z ∧ total = 0%Z → phaseLabel connection = "Connecting...")
  ∧ ((processed < total)%Z → phaseLabel connection = "Querying tables...")
  ∧ ((processed >= total)%Z → ¬ (processed = 0%Z ∧ total = 0%Z) →
       phaseLabel connection = "Summarizing...").
Proof.
  intros Herr Hdoc processed total.
  split.
  { unfold sourceRow. rewrite Herr, Hdoc. reflexivity. }
  unfold phaseLabel. fold processed total.
  split; [| split].
  - intros [Hp Ht]. rewrite !bool_decide_eq_true_2 by assumption. reflexivity.
  - intros Hlt. repeat case_bool_decide; simpl; try reflexivity; lia.
  - intros Hge Hnz. repeat case_bool_decide; simpl; try reflexivity; lia.
Qed.

(** C7, witness: 3 of 12 tables processed. *)
Lemma phase_is_inferred_from_counts_witness :
  sourceRow querying = ProgressRow false "Querying tables...".
Proof.
  destruct (phase_is_inferred_from_counts querying eq_refl eq_refl) as (Hrow & _).
  exact Hrow.
Defined.

End SourcePhase.

(** ** Reconnection *)

Section Reconnect.

Import Socket.

(** C8. The delay before reconnection attempt [n] is the ladder entry at
    index [n], 30 ms, 1 s, 5 s, 15 s, 50 s, and stays at the last entry, 50 s,
    from the end of the ladder on; the number of attempts is capped at 2880. *)
Theorem reconnect_delay_follows_ladder (n : Z) :
  (0 <= n)%Z →
  reconnectInterval n = backoffMs !! Z.to_nat (Z.min n 4)
  ∧ ((n < 5)%Z → reconnectInterval n = backoffMs !! Z.to_nat n)
  ∧ ((4 <= n)%Z → reconnectInterval n = Some 50000%Z)
  ∧ reconnectInterval 0 = Some 30%Z
  ∧ reconnectInterval 1 = Some 1000%Z
  ∧ reconnectInterval 2 = Some 5000%Z
  ∧ reconnectInterval 3 = Some 15000%Z
  ∧ reconnectInterval 4 = Some 50000%Z
  ∧ reconnectAttempts = 2880%Z.
Proof.
  intros Hn.
  assert (Hmain : reconnectInterval n = backoffMs !! Z.to_nat (Z.min n 4)).
  { unfold reconnectInterval. simpl length.
    change (Z.of_nat 5 - 1)%Z with 4%Z.
    destruct (Z.ltb_spec (Z.min n 4) 0); [lia | reflexivity]. }
  split; [exact Hmain |]. split; [| split].
  - intros Hlt. rewrite Hmain. rewrite Z.min_l by lia. reflexivity.
  - intros Hge. rewrite Hmain. rewrite Z.min_r by lia. reflexivity.
  - repeat split.
Qed.

(** C8, witness: the seventh attempt waits 50 s. *)
Lemma reconnect_delay_follows_ladder_witness :
  reconnectInterval 7 = Some 50000%Z.
Proof.
  destruct (reconnect_delay_follows_ladder 7 ltac:(lia)) as (_ & _ & H & _).
  exact (H ltac:(lia)).
Defined.

End Reconnect.

(** * Further properties of the code *)

(** ** The error list over time *)

Section ErrorLogFacts.

Import Errors ErrorLog.

(** Every entry in the list has its auto-dismiss timer pending, and every
    pending timer was scheduled 30000 ms after some report. *)
Definition covered (ops : list Op) (st : Store) : Prop :=
  (∀ e, e ∈ errors st → ∃ tm, tm ∈ timers st ∧ target tm = id e)
  ∧ (∀ tm, tm ∈ timers st → ∃ t0, t0 ∈ reportTimes ops ∧ due tm = (t0 + 30000)%Z).

Lemma reportTimes_snoc ops o :
  reportTimes (ops ++ [o]) =
  reportTimes ops ++ match o with Add c _ _ _ => [now c] | _ => [] end.
Proof.
  unfold reportTimes. rewrite omap_app. simpl. destruct o; reflexivity.
Qed.

Lemma covered_apply ops st o :
  covered ops st → covered (ops ++ [o]) (apply st o).
Proof.
  intros [Hent Htm]. unfold covered. rewrite reportTimes_snoc.
  destruct o as [c msg override source | errorId | t]; simpl.
  - unfold addError. destruct (has_message msg (errors st)).
    + split.
      * exact Hent.
      * intros tm Hin. destruct (Htm tm Hin) as (t0 & Ht0 & Hdue).
        exists t0. split; [apply elem_of_app; left; exact Ht0 | exact Hdue].
    + simpl. split.
      * intros e He. apply elem_of_app in He as [He | He].
        -- destruct (Hent e He) as (tm & Hin & Htg).
           exists tm. split; [apply elem_of_app; left; exact Hin | exact Htg].
        -- apply list_elem_of_singleton in He. subst e.
           eexists. split; [apply elem_of_app; right; apply list_elem_of_singleton;
                            reflexivity | reflexivity].
      * intros tm Hin. apply elem_of_app in Hin as [Hin | Hin].
        -- destruct (Htm tm Hin) as (t0 & Ht0 & Hdue).
           exists t0. split; [apply elem_of_app; left; exact Ht0 | exact Hdue].
        -- apply list_elem_of_singleton in Hin. subst tm.
           exists (now c). split; [| reflexivity].
           apply elem_of_app. right. apply list_elem_of_singleton. reflexivity.
  - rewrite app_nil_r. split; [| exact Htm].
    intros e He. apply list_elem_of_filter in He as [_ He]. apply Hent, He.
  - rewrite app_nil_r. split.
    + intros e He.
      assert (He0 : e ∈ errors st)
        by (eapply elem_of_sublist; [exact He | apply fire_all_sublist]).
      destruct (Hent e He0) as (tm & Hin & Htg).
      exists tm. split; [| exact Htg].
      apply list_elem_of_filter. split; [| exact Hin].
      intros Hdue. revert He. apply fire_all_removes with tm; [| congruence].
      apply list_elem_of_filter. split; assumption.
    + intros tm Hin. apply list_elem_of_filter in Hin as [_ Hin]. apply Htm, Hin.
Qed.

Lemma covered_replay ops : covered ops (replay ops).
Proof.
  unfold replay. induction ops as [| o ops IH] using rev_ind.
  - split; intros x Hx; inversion Hx.
  - rewrite foldl_app. simpl. apply covered_apply, IH.
Qed.

Lemma NoDup_apply st o :
  NoDup (message <$> errors st) → NoDup (message <$> errors (apply st o)).
Proof.
  destruct o; simpl;
    [apply addError_NoDup | apply dismissError_NoDup | apply advance_NoDup].
Qed.

(** X1. Whatever sequence of reports, dismissals and waits has happened, once
    30000 ms have passed since the latest report the error list is empty; and
    at no time does it show a message twice. *)
Theorem errors_do_not_outlive_their_timeout (ops : list Op) (t : Z) :
  let st := replay ops in
  NoDup (message <$> errors st)
  ∧ ((∀ t0, t0 ∈ reportTimes ops → (t0 + 30000 <= t)%Z) → errors (advance t st) = []).
Proof.
  intros st. split.
  - subst st. unfold replay. induction ops as [| o ops IH] using rev_ind.
    + apply NoDup_nil_2.
    + rewrite foldl_app. simpl. apply NoDup_apply, IH.
  - intros Hlate. destruct (covered_replay ops) as [Hent Htm]. fold st in Hent, Htm.
    destruct (errors (advance t st)) as [| e rest] eqn:Hleft; [reflexivity |].
    exfalso.
    assert (He : e ∈ errors (advance t st)) by (rewrite Hleft; apply elem_of_cons; auto).
    assert (He0 : e ∈ errors st)
      by (eapply elem_of_sublist; [exact He | apply fire_all_sublist]).
    destruct (Hent e He0) as (tm & Hin & Htg).
    revert He. unfold advance. simpl.
    apply fire_all_removes with tm; [| congruence].
    apply list_elem_of_filter. split; [| exact Hin].
    destruct (Htm tm Hin) as (t0 & Ht0 & ->). apply Hlate, Ht0.
Qed.

(** X2. Dismissing an entry removes exactly the entries with that id, keeps
    toasts and timers, and frees the message: the same error reported again
    is shown again. *)
Theorem dismissed_error_can_be_reported_again errorId c msg override source st :
  (∀ e, e ∈ errors st → message e = msg → id e = errorId) →
  let st' := dismissError errorId st in
  (∀ e, e ∈ errors st' ↔ e ∈ errors st ∧ id e ≠ errorId)
  ∧ toasts st' = toasts st
  ∧ timers st' = timers st
  ∧ ∃ e', errors (addError c msg override source st') = errors st' ++ [e']
          ∧ message e' = msg
          ∧ id e' = pretty (now c) +:+ random c.
Proof.
  intros Honly st'.
  assert (Hmem : ∀ e, e ∈ errors st' ↔ e ∈ errors st ∧ id e ≠ errorId).
  { intros e. subst st'. simpl. rewrite list_elem_of_filter. tauto. }
  split; [exact Hmem |]. split; [reflexivity |]. split; [reflexivity |].
  assert (Hfree : has_message msg (errors st') = false).
  { apply not_true_iff_false. intros Hhas. apply has_message_true in Hhas as (e & He & Hm).
    apply Hmem in He as [He Hne]. apply Hne, Honly; assumption. }
  unfold addError. rewrite Hfree. simpl. eauto.
Qed.

End ErrorLogFacts.

(** ** The reconciler over whole streams *)

Section StreamFacts.

Import Js Reconciler.

(** The only thing the message effect does to the notifications is to call
    [addError] without a source id. *)
Lemma processMessage_ui env msg s :
  ui (processMessage env msg s) = ui s
  ∨ ∃ text override,
      ui (processMessage env msg s) =
      Errors.addError (clock env) text override None (ui s).
Proof.
  assert (Htrack : ∀ action s0,
            match trackAction action s0 with
            | Finished s' | Threw s' => ui s' = ui s0
            end).
  { intros action s0. unfold trackAction. repeat case_bool_decide; try reflexivity.
    destruct (updates action) as [u |]; [| reflexivity].
    destruct (truthy (style_json u)); reflexivity. }
  unfold processMessage. destruct msg as [| | action]; simpl.
  - right. eauto.
  - left. reflexivity.
  - destruct (truthy_string (error_message action)).
    { right. simpl. eauto. }
    destruct (zoomRequest env action) as [[m b] |].
    + case_bool_decide; [left; reflexivity |].
      specialize (Htrack action (zoomTo m action b s)).
      destruct (trackAction action (zoomTo m action b s)) as [s' | s'];
        [left; exact Htrack |]. right. simpl. rewrite Htrack. simpl. eauto.
    + specialize (Htrack action s).
      destruct (trackAction action s) as [s' | s'];
        [left; exact Htrack |]. right. simpl. rewrite Htrack. eauto.
Qed.

Lemma run_snoc s msgs env msg :
  run s (msgs ++ [(env, msg)]) = processMessage env msg (run s msgs).
Proof. unfold run. rewrite foldl_app. simpl. apply deliver_processMessage. Qed.

(** X3. Along any stream of messages the error list never shows a message
    twice, and no entry the reconciler adds is attributed to a layer. *)
Theorem stream_errors_are_unique_and_unattributed (msgs : list (Env * Message)) :
  let s := run initial msgs in
  NoDup (Errors.message <$> Errors.errors (ui s))
  ∧ Forall (fun e => Errors.sourceId e = None) (Errors.errors (ui s))
  ∧ ∀ layerId, Layers.getLayerErrors (Errors.errors (ui s)) layerId = []
               ∧ Layers.errorTitle (Errors.errors (ui s)) layerId = None.
Proof.
  intros s.
  assert (H : NoDup (Errors.message <$> Errors.errors (ui s))
              ∧ Forall (fun e => Errors.sourceId e = None) (Errors.errors (ui s))).
  { subst s. induction msgs as [| [env msg] msgs IH] using rev_ind.
    - split; [apply NoDup_nil_2 | constructor].
    - rewrite run_snoc. destruct IH as [Hnd Hsrc].
      destruct (processMessage_ui env msg (run initial msgs))
        as [-> | (text & override & ->)]; [auto |].
      split; [apply addError_NoDup; exact Hnd |].
      unfold Errors.addError.
      destruct (Errors.has_message text _); [exact Hsrc |].
      simpl. apply Forall_app. split; [exact Hsrc |].
      constructor; [reflexivity | constructor]. }
  destruct H as [Hnd Hsrc]. split; [exact Hnd |]. split; [exact Hsrc |].
  intros layerId.
  assert (Hnone : Layers.getLayerErrors (Errors.errors (ui s)) layerId = []).
  { unfold Layers.getLayerErrors. clear Hnd.
    induction Hsrc as [| e es He _ IH]; [reflexivity |].
    rewrite filter_cons. destruct (decide _) as [Heq | _]; [congruence | exact IH]. }
  split; [exact Hnone |]. unfold Layers.errorTitle. rewrite Hnone. reflexivity.
Qed.

(** The bookkeeping of zooms when nobody uses the zoom buttons. *)
Definition zoomLedger (s : State) : Prop :=
  zoomHistoryIndex s = (Z.of_nat (length (zoomHistory s)) - 1)%Z
  ∧ length (zoomHistory s) = (2 * length (fitBoundsCalls s))%nat
  ∧ size (processedBoundsActionIds s) = length (fitBoundsCalls s).

Lemma slice0_all {A} (l : list A) :
  slice0 (Z.of_nat (length l) - 1 + 1) l = l.
Proof.
  rewrite slice0_take by lia.
  replace (Z.of_nat (length l) - 1 + 1)%Z with (Z.of_nat (length l)) by lia.
  rewrite Nat2Z.id. apply firstn_all.
Qed.

Lemma zoomLedger_step env msg s :
  zoomLedger s → zoomLedger (processMessage env msg s).
Proof.
  intros (Hidx & Hlen & Hsize).
  destruct (processMessage_cases env msg s)
    as [Hsame | (action & m & b & -> & Herr & Hreq & Hout & ->)].
  - unfold zoomState in Hsame. injection Hsame as Hh Hi Hf Hp.
    unfold zoomLedger. rewrite Hh, Hi, Hf, Hp. auto.
  - destruct (zoomRequest_active _ _ _ _ Hreq) as (_ & _ & Hb & _).
    destruct b as [| w [| so [| e [| n [| ? ?]]]]]; try discriminate Hb.
    unfold zoomLedger. simpl. rewrite Hidx, slice0_all.
    rewrite !length_app. simpl.
    rewrite size_union by (apply disjoint_singleton_r; exact Hout).
    rewrite size_singleton. repeat split; lia.
Qed.

(** X4. In a session where the zoom buttons are not used, every zoom adds
    two history entries and none is ever discarded, the index stays on the
    last entry, and the number of zooms is the number of action ids on
    record: no action id zooms twice. *)
Theorem zooms_are_counted_once_per_action (msgs : list (Env * Message)) :
  let s := run initial msgs in
  zoomHistoryIndex s = (Z.of_nat (length (zoomHistory s)) - 1)%Z
  ∧ length (zoomHistory s) = (2 * length (fitBoundsCalls s))%nat
  ∧ size (processedBoundsActionIds s) = length (fitBoundsCalls s).
Proof.
  intros s. subst s. change (zoomLedger (run initial msgs)).
  induction msgs as [| [env msg] msgs IH] using rev_ind.
  - unfold zoomLedger. split; [reflexivity |]. split; [reflexivity |].
    exact (size_empty (C := gset string)).
  - rewrite run_snoc. apply zoomLedger_step, IH.
Qed.

Lemma zoomRequest_completed env action :
  status action = "completed" → zoomRequest env action = None.
Proof.
  intros Hst. unfold zoomRequest. destruct (bounds action); [| reflexivity].
  destruct (mapRef env); [| reflexivity].
  rewrite (bool_decide_eq_false_2 (status action = "active"))
    by (rewrite Hst; discriminate).
  rewrite andb_false_r. reflexivity.
Qed.

Lemma processMessage_completed env action s :
  status action = "completed" →
  truthy_string (error_message action) = false →
  activeActions (processMessage env (Ephemeral action) s) =
  filter (fun a => action_id a ≠ action_id action) (activeActions s).
Proof.
  intros Hst Herr.
  unfold processMessage, tryBody.
  rewrite Herr, (zoomRequest_completed env action Hst). unfold trackAction.
  rewrite (bool_decide_eq_false_2 (status action = "active"))
    by (rewrite Hst; discriminate).
  rewrite bool_decide_eq_true_2 by assumption.
  destruct (updates action) as [u |]; [destruct (truthy (style_json u)) |];
    reflexivity.
Qed.

(** X5. A "completed" event without [error_message] leaves no action with
    its id in the active list, whether or not its [updates] can be read, and
    does not touch the other actions. *)
Theorem completed_clears_its_action env action s :
  status action = "completed" →
  truthy_string (error_message action) = false →
  let s' := processMessage env (Ephemeral action) s in
  activeActions s' = filter (fun a => action_id a ≠ action_id action) (activeActions s)
  ∧ Forall (fun a => action_id a ≠ action_id action) (activeActions s')
  ∧ zoomState s' = zoomState s.
Proof.
  intros Hst Herr s'.
  assert (Hact : activeActions s' =
                 filter (fun a => action_id a ≠ action_id action) (activeActions s))
    by (apply processMessage_completed; assumption).
  split; [exact Hact |]. split.
  - rewrite Hact. apply Forall_forall. intros a Ha.
    apply list_elem_of_filter in Ha as [Hne _]. exact Hne.
  - destruct (processMessage_cases env (Ephemeral action) s)
      as [H | (a & m & b & [= <-] & _ & Hreq' & _)]; [exact H |].
    rewrite (zoomRequest_completed env action Hst) in Hreq'. discriminate Hreq'.
Qed.

(** X6. An action announced as "active" and then "completed", neither with
    an [error_message], is gone from the active list afterwards, and the
    other actions are as before; this holds whether or not it zoomed. *)
Theorem active_then_completed_leaves_no_trace env1 env2 a c s :
  action_id a = action_id c →
  status a = "active" →
  status c = "completed" →
  truthy_string (error_message a) = false →
  truthy_string (error_message c) = false →
  activeActions (run s [(env1, Ephemeral a); (env2, Ephemeral c)]) =
  filter (fun x => action_id x ≠ action_id c) (activeActions s).
Proof.
  intros Hid Ha Hc Hea Hec. unfold run. simpl. rewrite !deliver_processMessage.
  rewrite (processMessage_completed env2 c _ Hc Hec).
  destruct (processMessage_activeActions env1 (Ephemeral a) s)
    as [-> | [(a' & [= <-] & _ & ->) | (a' & [= <-] & Hdone & _)]].
  - reflexivity.
  - rewrite filter_app, filter_cons, filter_nil.
    destruct (decide (action_id a ≠ action_id c)) as [Hne | _]; [contradiction |].
    apply app_nil_r.
  - rewrite Ha in Hdone. discriminate Hdone.
Qed.

(** X7. When the "completed" event of an action arrives before its "active"
    event, the action stays in the active list: nothing clears it, and its
    layer keeps showing as busy. *)
Theorem late_active_event_stays_listed env1 env2 c a layerId s :
  action_id c = action_id a →
  status c = "completed" →
  status a = "active" →
  truthy_string (error_message a) = false →
  action_id a ∉ processedBoundsActionIds s →
  layer_id a = Some layerId →
  let s' := run s [(env1, Ephemeral c); (env2, Ephemeral a)] in
  last (activeActions s') = Some a
  ∧ Layers.hasActiveAction layerId (activeActions s') = true.
Proof.
  intros Hid Hc Ha Hea Hfresh Hlayer s'.
  assert (Hlast : last (activeActions s') = Some a).
  { subst s'. unfold run. simpl. rewrite !deliver_processMessage.
    set (s1 := processMessage env1 (Ephemeral c) s).
    assert (Hfresh1 : action_id a ∉ processedBoundsActionIds s1).
    { destruct (processMessage_cases env1 (Ephemeral c) s)
        as [H | (c' & m & b & [= <-] & _ & Hreq & _)].
      - unfold zoomState in H. injection H as _ _ _ Hp. fold s1 in Hp.
        rewrite Hp. exact Hfresh.
      - apply zoomRequest_active in Hreq as (_ & _ & _ & Hst).
        rewrite Hc in Hst. discriminate Hst. }
    destruct (zoomRequest env2 a) as [[m b] |] eqn:Hreq.
    - rewrite (processMessage_zoom env2 a m b s1) by assumption.
      simpl. apply last_snoc.
    - unfold processMessage, tryBody. rewrite Hea, Hreq. unfold trackAction.
      rewrite bool_decide_eq_true_2 by assumption. simpl. apply last_snoc. }
  split; [exact Hlast |].
  unfold Layers.hasActiveAction. apply existsb_exists. exists a. split.
  - apply list_elem_of_In. apply last_Some_elem_of. exact Hlast.
  - apply bool_decide_eq_true. exact Hlayer.
Qed.

(** X8. An event that carries an [error_message] is only ever turned into an
    error entry without a toast: it never zooms, never changes the active
    actions and never invalidates the map document, whatever its status,
    bounds or updates. *)
Theorem error_notification_only_reports env action s :
  truthy_string (error_message action) = true →
  let s' := processMessage env (Ephemeral action) s in
  activeActions s' = activeActions s
  ∧ zoomState s' = zoomState s
  ∧ invalidateMapDataCalls s' = invalidateMapDataCalls s
  ∧ Errors.toasts (ui s') = Errors.toasts (ui s)
  ∧ ∃ text, error_message action = Some text
            ∧ Errors.has_message text (Errors.errors (ui s')) = true
            ∧ (Errors.has_message text (Errors.errors (ui s)) = false →
                 ∃ e, Errors.errors (ui s') = Errors.errors (ui s) ++ [e]
                      ∧ Errors.message e = text
                      ∧ Errors.shouldOverrideMessages e = true).
Proof.
  intros Herr s'. subst s'. unfold processMessage, tryBody. rewrite Herr.
  destruct (error_message action) as [text |] eqn:Hmsg; [| discriminate Herr].
  simpl. repeat split.
  - unfold Errors.addError. destruct (Errors.has_message text _); reflexivity.
  - exists text. split; [reflexivity |].
    unfold Errors.addError.
    destruct (Errors.has_message text (Errors.errors (ui s))) eqn:Hhas.
    + split; [exact Hhas | discriminate].
    + simpl. split.
      * apply has_message_true. eexists. split.
        -- apply elem_of_app. right. apply list_elem_of_singleton. reflexivity.
        -- reflexivity.
      * intros _. eauto.
Qed.

End StreamFacts.

(** ** The zoom buttons *)

Section NavigationFacts.

Import Js Reconciler Navigation.

Lemma historyItem_Some s i e :
  historyItem s i = Some e →
  (0 <= i < Z.of_nat (length (zoomHistory s)))%Z ∧ zoomHistory s !! Z.to_nat i = Some e.
Proof.
  unfold historyItem. destruct (Z.ltb_spec i 0); [discriminate |].
  intros Hlook. split; [| exact Hlook].
  apply lookup_lt_Some in Hlook. lia.
Qed.

Lemma wellFormed_item s i :
  wellFormed s → (0 <= i < Z.of_nat (length (zoomHistory s)))%Z →
  ∃ x0 y0 x1 y1, historyItem s i = Some {| entry_bounds := [x0; y0; x1; y1] |}.
Proof.
  intros [Hall _] Hi. unfold historyItem.
  destruct (Z.ltb_spec i 0); [lia |].
  destruct (lookup_lt_is_Some_2 (zoomHistory s) (Z.to_nat i)) as [[b] Hb]; [lia |].
  rewrite Forall_forall in Hall.
  assert (Hlen : length b = 4%nat).
  { apply (Hall {| entry_bounds := b |}). eapply list_elem_of_lookup_2, Hb. }
  destruct b as [| x0 [| y0 [| x1 [| y1 [| ? ?]]]]]; try discriminate Hlen.
  rewrite Hb. eauto.
Qed.

Lemma moveTo_wellFormed i s : wellFormed s → wellFormed (moveTo i s).
Proof.
  intros Hwf. unfold moveTo.
  destruct (historyItem s i) as [[b] |] eqn:Hitem; [| exact Hwf].
  destruct b as [| x0 [| y0 [| x1 [| y1 [| ? ?]]]]]; try exact Hwf.
  apply historyItem_Some in Hitem as [Hi _].
  destruct Hwf as [Hall _]. split; [exact Hall | simpl; lia].
Qed.

Lemma processMessage_wellFormed env msg s :
  wellFormed s → wellFormed (processMessage env msg s).
Proof.
  intros [Hall Hidx].
  destruct (processMessage_cases env msg s)
    as [Hsame | (action & m & b & -> & Herr & Hreq & Hout & ->)].
  - unfold zoomState in Hsame. injection Hsame as Hh Hi _ _.
    unfold wellFormed. rewrite Hh, Hi. auto.
  - destruct (zoomRequest_active _ _ _ _ Hreq) as (_ & _ & Hb & _).
    unfold wellFormed. simpl. rewrite slice0_take by lia. split.
    + apply Forall_app. split; [apply Forall_take, Hall |].
      constructor; [reflexivity |]. constructor; [exact Hb | constructor].
    + rewrite length_app, length_take. simpl. lia.
Qed.

Lemma step_wellFormed s e : wellFormed s → wellFormed (step s e).
Proof.
  intros Hwf. destruct e as [env msg | env | env]; simpl.
  - apply processMessage_wellFormed, Hwf.
  - unfold previousLocation. destruct (_ && _); [apply moveTo_wellFormed |]; exact Hwf.
  - unfold nextLocation. destruct (_ && _); [apply moveTo_wellFormed |]; exact Hwf.
Qed.

(** X9. However messages and clicks on the two zoom buttons interleave, every
    history entry has four coordinates and the index is -1 over an empty
    history or points at an entry: the buttons never meet an invalid item. *)
Theorem session_keeps_history_well_formed (es : list Step) :
  let s := session initial es in
  Forall (fun e => length (entry_bounds e) = 4%nat) (zoomHistory s)
  ∧ (-1 <= zoomHistoryIndex s < Z.of_nat (length (zoomHistory s)))%Z.
Proof.
  intros s. subst s. change (wellFormed (session initial es)).
  unfold session. induction es as [| e es IH] using rev_ind.
  - split; [constructor | simpl; lia].
  - rewrite foldl_app. simpl. apply step_wellFormed, IH.
Qed.

Lemma previousLocation_moves env m s :
  wellFormed s →
  mapRef env = Some m →
  previousDisabled s = false →
  ∃ x0 y0 x1 y1,
    zoomHistory s !! Z.to_nat (zoomHistoryIndex s - 1) =
      Some {| entry_bounds := [x0; y0; x1; y1] |}
    ∧ previousLocation env s = moveTo (zoomHistoryIndex s - 1) s
    ∧ zoomHistoryIndex (previousLocation env s) = (zoomHistoryIndex s - 1)%Z
    ∧ fitBoundsCalls (previousLocation env s) =
        fitBoundsCalls s ++ [{| southwest := (x0, y0); northeast := (x1, y1);
                                animate := true; padding := None |}]
    ∧ zoomHistory (previousLocation env s) = zoomHistory s
    ∧ activeActions (previousLocation env s) = activeActions s.
Proof.
  intros Hwf Hmap Hen.
  unfold previousDisabled in Hen. apply Z.leb_gt in Hen.
  unfold previousLocation.
  rewrite (bool_decide_eq_true_2 (is_Some (mapRef env))) by (rewrite Hmap; eauto).
  rewrite andb_true_r.
  destruct (Z.ltb_spec 0 (zoomHistoryIndex s)); [| lia].
  destruct Hwf as [Hall Hidx].
  destruct (wellFormed_item s (zoomHistoryIndex s - 1) (conj Hall Hidx))
    as (x0 & y0 & x1 & y1 & Hitem); [lia |].
  exists x0, y0, x1, y1.
  destruct (historyItem_Some _ _ _ Hitem) as [_ Hlook].
  split; [exact Hlook |]. split; [reflexivity |].
  unfold moveTo. rewrite Hitem. simpl. auto.
Qed.

Lemma nextLocation_moves env m s :
  wellFormed s →
  mapRef env = Some m →
  nextDisabled s = false →
  ∃ x0 y0 x1 y1,
    zoomHistory s !! Z.to_nat (zoomHistoryIndex s + 1) =
      Some {| entry_bounds := [x0; y0; x1; y1] |}
    ∧ nextLocation env s = moveTo (zoomHistoryIndex s + 1) s
    ∧ zoomHistoryIndex (nextLocation env s) = (zoomHistoryIndex s + 1)%Z
    ∧ fitBoundsCalls (nextLocation env s) =
        fitBoundsCalls s ++ [{| southwest := (x0, y0); northeast := (x1, y1);
                                animate := true; padding := None |}]
    ∧ zoomHistory (nextLocation env s) = zoomHistory s
    ∧ activeActions (nextLocation env s) = activeActions s.
Proof.
  intros Hwf Hmap Hen.
  unfold nextDisabled in Hen. unfold nextLocation.
  rewrite (bool_decide_eq_true_2 (is_Some (mapRef env))) by (rewrite Hmap; eauto).
  rewrite andb_true_r.
  destruct (Z.ltb_spec (zoomHistoryIndex s) (Z.of_nat (length (zoomHistory s)) - 1))
    as [Hlt | Hge].
  2:{ exfalso. apply not_true_iff_false in Hen. apply Hen. apply Z.geb_le. lia. }
  destruct Hwf as [Hall Hidx].
  destruct (wellFormed_item s (zoomHistoryIndex s + 1) (conj Hall Hidx))
    as (x0 & y0 & x1 & y1 & Hitem); [lia |].
  exists x0, y0, x1, y1.
  destruct (historyItem_Some _ _ _ Hitem) as [_ Hlook].
  split; [exact Hlook |]. split; [reflexivity |].
  unfold moveTo. rewrite Hitem. simpl. auto.
Qed.


(** X11. Going to the previous location and then to the next one comes back
    to the same index over the same history. *)
Theorem previous_then_next_returns env1 m1 env2 m2 s :
  wellFormed s →
  mapRef env1 = Some m1 →
  mapRef env2 = Some m2 →
  previousDisabled s = false →
  let s' := nextLocation env2 (previousLocation env1 s) in
  zoomHistoryIndex s' = zoomHistoryIndex s
  ∧ zoomHistory s' = zoomHistory s
  ∧ length (fitBoundsCalls s') = (2 + length (fitBoundsCalls s))%nat.
Proof.
  intros Hwf Hm1 Hm2 Hen s'.
  destruct (previousLocation_moves env1 m1 s Hwf Hm1 Hen)
    as (x0 & y0 & x1 & y1 & _ & Hmove & Hi & Hf & Hh & _).
  set (s1 := previousLocation env1 s) in *.
  assert (Hwf1 : wellFormed s1) by (rewrite Hmove; apply moveTo_wellFormed, Hwf).
  assert (Hen1 : nextDisabled s1 = false).
  { unfold nextDisabled. rewrite Hi, Hh. destruct Hwf as [_ Hidx].
    apply not_true_iff_false. intros Hge. apply Z.geb_le in Hge. lia. }
  destruct (nextLocation_moves env2 m2 s1 Hwf1 Hm2 Hen1)
    as (? & ? & ? & ? & _ & _ & Hi2 & Hf2 & Hh2 & _).
  subst s'. rewrite Hi2, Hh2, Hf2, Hi, Hh, Hf, !length_app. simpl.
  repeat split; lia.
Qed.

(** X12. After a zoom that an action triggered, one click on "Previous
    location" sends the view back to the bounds it showed before the zoom,
    and "Next location" is then enabled again. *)
Theorem previous_location_undoes_action_zoom env1 env2 action m m2 target s :
  wellFormed s →
  status action = "active" →
  bounds action = Some target →
  length target = 4%nat →
  mapRef env1 = Some m →
  truthy_string (error_message action) = false →
  action_id action ∉ processedBoundsActionIds s →
  mapRef env2 = Some m2 →
  let zoomed := processMessage env1 (Ephemeral action) s in
  let back := previousLocation env2 zoomed in
  fitBoundsCalls back =
    fitBoundsCalls zoomed ++
    [{| southwest := (getWest (getBounds m), getSouth (getBounds m));
        northeast := (getEast (getBounds m), getNorth (getBounds m));
        animate := true; padding := None |}]
  ∧ zoomHistoryIndex back = (zoomHistoryIndex s + 1)%Z
  ∧ nextDisabled back = false.
Proof.
  intros [Hall Hidx] Hst Hb Hlen Hmap Herr Hfresh Hmap2 zoomed back.
  assert (Hreq : zoomRequest env1 action = Some (m, target))
    by (apply zoomRequest_intro; assumption).
  assert (Hz : zoomed = setActiveActions (fun prev => prev ++ [action])
                          (zoomTo m action target s))
    by (apply processMessage_zoom; assumption).
  assert (Hhist : zoomHistory zoomed =
            take (Z.to_nat (zoomHistoryIndex s + 1)) (zoomHistory s) ++
            [{| entry_bounds := [getWest (getBounds m); getSouth (getBounds m);
                                 getEast (getBounds m); getNorth (getBounds m)] |};
             {| entry_bounds := target |}]).
  { rewrite Hz. simpl. rewrite slice0_take by lia. reflexivity. }
  assert (Hi : zoomHistoryIndex zoomed = (zoomHistoryIndex s + 2)%Z)
    by (rewrite Hz; reflexivity).
  assert (Htake : length (take (Z.to_nat (zoomHistoryIndex s + 1)) (zoomHistory s))
                  = Z.to_nat (zoomHistoryIndex s + 1))
    by (rewrite length_take; lia).
  assert (Hitem : historyItem zoomed (zoomHistoryIndex zoomed - 1) =
            Some {| entry_bounds := [getWest (getBounds m); getSouth (getBounds m);
                                     getEast (getBounds m); getNorth (getBounds m)] |}).
  { unfold historyItem. rewrite Hi.
    destruct (Z.ltb_spec (zoomHistoryIndex s + 2 - 1) 0); [lia |].
    rewrite Hhist.
    replace (zoomHistoryIndex s + 2 - 1)%Z with (zoomHistoryIndex s + 1)%Z by lia.
    rewrite lookup_app_r by lia. rewrite Htake, Nat.sub_diag. reflexivity. }
  assert (Hback : back = moveTo (zoomHistoryIndex zoomed - 1) zoomed).
  { subst back. unfold previousLocation.
    rewrite (bool_decide_eq_true_2 (is_Some (mapRef env2)))
      by (rewrite Hmap2; eauto).
    destruct (Z.ltb_spec 0 (zoomHistoryIndex zoomed)); [reflexivity | lia]. }
  rewrite Hback. unfold moveTo. rewrite Hitem. simpl.
  split; [reflexivity |]. split; [lia |].
  unfold nextDisabled. simpl. rewrite Hhist, length_app, Htake. simpl.
  apply not_true_iff_false. intros Hge. apply Z.geb_le in Hge. lia.
Qed.

End NavigationFacts.

(** ** Uploads in flight *)

Section TransferFacts.

Import Upload Transfer.

Lemma runTask_queue_sublist t s : queue (runTask t s) `sublist_of` queue s.
Proof. destruct t; simpl; [apply sublist_filter | reflexivity | reflexivity]. Qed.

Lemma runTasks_queue_sublist tms s :
  queue (foldl (fun st tm => runTask (task tm) st) s tms) `sublist_of` queue s.
Proof.
  revert s. induction tms as [| tm tms IH]; intros s; simpl; [reflexivity |].
  etransitivity; [apply IH | apply runTask_queue_sublist].
Qed.

Lemma runTasks_prune tms s tm fileId :
  tm ∈ tms → task tm = Prune fileId →
  Forall (fun f => id f ≠ fileId)
         (queue (foldl (fun st tm' => runTask (task tm') st) s tms)).
Proof.
  revert s. induction tms as [| tm' tms IH]; intros s Hin Htask; simpl.
  { inversion Hin. }
  apply elem_of_cons in Hin as [<- | Hin]; [| apply IH; assumption].
  apply Forall_forall. intros f Hf.
  eapply elem_of_sublist in Hf; [| apply runTasks_queue_sublist].
  rewrite Htask in Hf. simpl in Hf.
  apply list_elem_of_filter in Hf as [Hne _]. exact Hne.
Qed.

(** Once a pruning timer is due, no entry with its id is left. *)
Lemma advance_prunes t s tm fileId :
  tm ∈ timers s → task tm = Prune fileId → (due tm <= t)%Z →
  Forall (fun f => id f ≠ fileId) (queue (advance t s)).
Proof.
  intros Hin Htask Hdue. unfold advance.
  apply runTasks_prune with tm; [| exact Htask].
  apply list_elem_of_filter. split; assumption.
Qed.

Lemma filter_none {A} (P : A → Prop) `{∀ x, Decision (P x)} (l : list A) :
  Forall (fun x => ¬ P x) l → filter P l = [].
Proof.
  induction 1 as [| x l Hx _ IH]; [reflexivity |].
  rewrite filter_cons. destruct (decide (P x)); [contradiction | exact IH].
Qed.

Lemma filter_all {A} (P : A → Prop) `{∀ x, Decision (P x)} (l : list A) :
  Forall P l → filter P l = l.
Proof.
  induction 1 as [| x l Hx _ IH]; [reflexivity |].
  rewrite filter_cons. destruct (decide (P x)); [f_equal; exact IH | contradiction].
Qed.

(** Before any timer is due, time passing changes nothing. *)
Lemma advance_early t s :
  Forall (fun tm => (t < due tm)%Z) (timers s) → advance t s = s.
Proof.
  intros Hlater. unfold advance.
  rewrite (filter_none (fun tm => (due tm <= t)%Z))
    by (eapply Forall_impl; [exact Hlater | simpl; intros; lia]).
  rewrite (filter_all (fun tm => ¬ (due tm <= t)%Z))
    by (eapply Forall_impl; [exact Hlater | simpl; intros; lia]).
  destruct s; reflexivity.
Qed.

(** X13. A progress event changes only the progress of the upload it names:
    ids, files, statuses and error texts of all entries are kept, entries of
    other uploads are untouched, and an event whose length is not computable
    changes nothing. *)
Theorem progress_event_touches_one_upload (lengthComputable : bool) fileId p s :
  let s' := onProgress lengthComputable fileId p s in
  id <$> queue s' = id <$> queue s
  ∧ file <$> queue s' = file <$> queue s
  ∧ status <$> queue s' = status <$> queue s
  ∧ error <$> queue s' = error <$> queue s
  ∧ (∀ f, f ∈ queue s → id f ≠ fileId → f ∈ queue s')
  ∧ (lengthComputable = true →
       ∀ f, f ∈ queue s' → id f = fileId → progress f = p)
  ∧ (lengthComputable = false → s' = s)
  ∧ toasts s' = toasts s
  ∧ timers s' = timers s.
Proof.
  intros s'. subst s'. unfold onProgress.
  destruct lengthComputable; simpl.
  - assert (Hfield : ∀ {B} (g : UploadingFile → B),
              (∀ f, g (withProgress fileId p f) = g f) →
              g <$> (withProgress fileId p <$> queue s) = g <$> queue s).
    { intros B g Hg. rewrite <- list_fmap_compose. apply list_fmap_ext.
      intros i f _. apply Hg. }
    assert (Hkeep : ∀ {B} (g : UploadingFile → B),
              (∀ f q, g {| id := id f; file := file f; progress := q;
                           status := status f; error := error f |} = g f) →
              g <$> (withProgress fileId p <$> queue s) = g <$> queue s).
    { intros B g Hg. apply Hfield. intros f. unfold withProgress.
      case_bool_decide; [apply Hg | reflexivity]. }
    split; [apply Hkeep; reflexivity |]. split; [apply Hkeep; reflexivity |].
    split; [apply Hkeep; reflexivity |]. split; [apply Hkeep; reflexivity |].
    split.
    { intros f Hf Hne. apply list_elem_of_fmap. exists f. split; [| exact Hf].
      unfold withProgress. rewrite bool_decide_eq_false_2 by assumption. reflexivity. }
    split.
    { intros _ f Hf Hid. apply list_elem_of_fmap in Hf as (f0 & -> & _).
      revert Hid. unfold withProgress. case_bool_decide; simpl; [reflexivity |].
      intros Hid. contradiction. }
    split; [discriminate |]. split; reflexivity.
  - split; [reflexivity |]. split; [reflexivity |]. split; [reflexivity |].
    split; [reflexivity |]. split; [intros f Hf _; exact Hf |].
    split; [discriminate |]. split; [reflexivity |]. split; reflexivity.
Qed.

(** X14. A successful upload is shown as completed at 100% and leaves the
    queue 2000 ms later; the project is invalidated at once, and exactly one
    follow-up is scheduled: a navigation to the child map after 1000 ms when
    the response names one, otherwise a refresh of the map data after
    2000 ms. *)
Theorem finished_upload_is_pruned_and_followed_up now projectId response fileId s :
  timers s = [] →
  let s1 := onSuccess now projectId response fileId s in
  queue s1 = asCompleted fileId <$> queue s
  ∧ Forall (fun f => id f = fileId → status f = "completed" ∧ progress f = 100%Z)
      (queue s1)
  ∧ projectInvalidations s1 = S (projectInvalidations s)
  ∧ (∀ t, (t < now + 1000)%Z → advance t s1 = s1)
  ∧ (∀ t, (now + 2000 <= t)%Z →
       queue (advance t s1) = filter (fun f => id f ≠ fileId) (queue s1)
       ∧ timers (advance t s1) = [])
  ∧ (Js.truthy_string (dag_child_map_id response) = true →
       ∀ t, (now + 1000 <= t)%Z →
         navigations (advance t s1) =
           navigations s ++ ["/project/" +:+ projectId +:+ "/" +:+
                             default "" (dag_child_map_id response)]
         ∧ mapInvalidations (advance t s1) = mapInvalidations s)
  ∧ (Js.truthy_string (dag_child_map_id response) = false →
       ∀ t, navigations (advance t s1) = navigations s
            ∧ ((now + 2000 <= t)%Z →
                 mapInvalidations (advance t s1) = S (mapInvalidations s))
            ∧ ((t < now + 2000)%Z →
                 mapInvalidations (advance t s1) = mapInvalidations s)).
Proof.
  intros Hclean s1.
  assert (Hq : queue s1 = asCompleted fileId <$> queue s).
  { subst s1. unfold onSuccess. destruct (Js.truthy_string _); reflexivity. }
  assert (Htm : timers s1 =
            {| due := (now + 2000)%Z; task := Prune fileId |} ::
            [if Js.truthy_string (dag_child_map_id response)
             then {| due := (now + 1000)%Z;
                     task := Navigate ("/project/" +:+ projectId +:+ "/" +:+
                                       default "" (dag_child_map_id response)) |}
             else {| due := (now + 2000)%Z; task := InvalidateMap |}]).
  { subst s1. unfold onSuccess.
    destruct (Js.truthy_string _); simpl; rewrite Hclean; reflexivity. }
  assert (Hnav : navigations s1 = navigations s ∧ mapInvalidations s1 = mapInvalidations s
                 ∧ projectInvalidations s1 = S (projectInvalidations s)).
  { subst s1. unfold onSuccess. destruct (Js.truthy_string _); simpl; auto. }
  destruct Hnav as (Hnav & Hmap & Hproj).
  split; [exact Hq |]. split.
  { rewrite Hq. apply Forall_forall. intros f Hf Hid.
    apply list_elem_of_fmap in Hf as (f0 & -> & _).
    revert Hid. unfold asCompleted. case_bool_decide; simpl; [auto |].
    intros Hid. contradiction. }
  split; [exact Hproj |]. split.
  { intros t Ht. apply advance_early. rewrite Htm.
    constructor; [simpl; lia |]. constructor; [| constructor].
    destruct (Js.truthy_string _); simpl; lia. }
  destruct (Js.truthy_string (dag_child_map_id response)) eqn:Hchild.
  - split; [| split].
    + intros t Ht. unfold advance. rewrite Htm, !filter_cons, !filter_nil. cbn [due task].
      destruct (decide (now + 2000 <= t)%Z); [| lia].
      destruct (decide (¬ (now + 2000 <= t)%Z)); [lia |].
      destruct (decide (now + 1000 <= t)%Z); [| lia].
      destruct (decide (¬ (now + 1000 <= t)%Z)); [lia |].
      simpl. auto.
    + intros _ t Ht. unfold advance. rewrite Htm, !filter_cons, !filter_nil. cbn [due task].
      destruct (decide (now + 1000 <= t)%Z); [| lia].
      destruct (decide (now + 2000 <= t)%Z); simpl; rewrite Hnav, Hmap; auto.
    + discriminate.
  - split; [| split].
    + intros t Ht. unfold advance. rewrite Htm, !filter_cons, !filter_nil. cbn [due task].
      destruct (decide (now + 2000 <= t)%Z); [| lia].
      destruct (decide (¬ (now + 2000 <= t)%Z)); [lia |].
      simpl. auto.
    + discriminate.
    + intros _ t. unfold advance. rewrite Htm, !filter_cons, !filter_nil. cbn [due task].
      destruct (decide (now + 2000 <= t)%Z); simpl; rewrite Hnav, Hmap;
        (split; [reflexivity |]); split; intros; (reflexivity || lia).
Qed.

(** X15. A failed upload is shown with status "error" and the error text,
    announced by one toast that names the file, and leaves the queue 5000 ms
    later and not before. *)
Theorem failed_upload_is_shown_then_pruned now errorMessage f fileId s :
  timers s = [] →
  let s1 := onError now errorMessage f fileId s in
  queue s1 = asError fileId errorMessage <$> queue s
  ∧ Forall (fun u => id u = fileId →
              status u = "error" ∧ error u = Some errorMessage)
      (queue s1)
  ∧ toasts s1 = toasts s ++ ["Error uploading " +:+ name f +:+ ": " +:+ errorMessage]
  ∧ (∀ t, (t < now + 5000)%Z → advance t s1 = s1)
  ∧ (∀ t, (now + 5000 <= t)%Z →
       queue (advance t s1) = filter (fun u => id u ≠ fileId) (queue s1)
       ∧ timers (advance t s1) = []).
Proof.
  intros Hclean s1.
  assert (Htm : timers s1 = [{| due := (now + 5000)%Z; task := Prune fileId |}]).
  { subst s1. unfold onError. simpl. rewrite Hclean. reflexivity. }
  split; [reflexivity |]. split.
  { apply Forall_forall. intros u Hu Hid. subst s1. simpl in Hu.
    apply list_elem_of_fmap in Hu as (u0 & -> & _).
    revert Hid. unfold asError. case_bool_decide; simpl; [auto |].
    intros Hid. contradiction. }
  split; [reflexivity |]. split.
  { intros t Ht. apply advance_early. rewrite Htm.
    constructor; [simpl; lia | constructor]. }
  intros t Ht. unfold advance. rewrite Htm, !filter_cons, !filter_nil. simpl.
  destruct (decide (now + 5000 <= t)%Z); [| lia].
  destruct (decide (¬ (now + 5000 <= t)%Z)); [lia |].
  simpl. auto.
Qed.

End TransferFacts.

(** ** Dropped files *)

Section DropFacts.

Import Upload.

Lemma onDrop_result versionId stamp acceptedFiles s :
  Js.truthy_string versionId = true →
  let s' := onDrop versionId stamp acceptedFiles s in
  let added := imap (newEntry stamp) (filter (fun f => ¬ tooLarge f) acceptedFiles) in
  uploadingFiles s' = uploadingFiles s ++ added
  ∧ mutations s' = mutations s ++ ((fun u => (file u, id u)) <$> added).
Proof.
  intros Hver s' added. subst s' added. unfold onDrop. rewrite Hver. simpl negb. simpl orb.
  case_bool_decide as Hlen.
  - destruct acceptedFiles; [| discriminate Hlen]. simpl. rewrite !app_nil_r. auto.
  - rewrite toast_all. case_bool_decide as Hvalid.
    + destruct (filter (fun f => ¬ tooLarge f) acceptedFiles); [| discriminate Hvalid].
      simpl. rewrite !app_nil_r. auto.
    + simpl. auto.
Qed.

Lemma imap_newEntry_files stamp fs k :
  file <$> imap (fun i => newEntry stamp (k + i)) fs = fs.
Proof.
  revert k. induction fs as [| f fs IH]; intros k; simpl; [reflexivity |].
  f_equal. specialize (IH (S k)). erewrite imap_ext; [exact IH |].
  intros i x _. simpl. f_equal. lia.
Qed.

(** X16. An upload is started for exactly the files that enter the queue,
    one each and with the id of its queue entry, in the order they were
    dropped; without a map version nothing happens at all, not even the
    notice about oversized files. *)
Theorem every_queued_file_starts_one_upload versionId stamp acceptedFiles s :
  let s' := onDrop versionId stamp acceptedFiles s in
  let added := drop (length (uploadingFiles s)) (uploadingFiles s') in
  (Js.truthy_string versionId = false → s' = s)
  ∧ (Js.truthy_string versionId = true →
       uploadingFiles s' = uploadingFiles s ++ added
       ∧ file <$> added = filter (fun f => ¬ tooLarge f) acceptedFiles
       ∧ mutations s' = mutations s ++ ((fun u => (file u, id u)) <$> added)).
Proof.
  intros s' added. split.
  - intros Hno. subst s'. unfold onDrop. rewrite Hno. reflexivity.
  - intros Hver.
    destruct (onDrop_result versionId stamp acceptedFiles s Hver) as [Hup Hmut].
    fold s' in Hup, Hmut.
    assert (Hadded : added =
              imap (newEntry stamp) (filter (fun f => ¬ tooLarge f) acceptedFiles)).
    { subst added. rewrite Hup. rewrite drop_app_length. reflexivity. }
    rewrite Hadded. split; [exact Hup |]. split; [| exact Hmut].
    apply (imap_newEntry_files stamp _ 0).
Qed.

Lemma unique_go_spec seen xs :
  NoDup (Js.unique_go seen xs)
  ∧ ∀ x, x ∈ Js.unique_go seen xs ↔ x ∈ xs ∧ x ∉ seen.
Proof.
  revert seen. induction xs as [| y xs IH]; intros seen; simpl.
  { split; [apply NoDup_nil_2 |]. intros x. split; [intros H; inversion H |].
    intros [H _]. inversion H. }
  case_bool_decide as Hy.
  - destruct (IH seen) as [Hnd Hmem]. split; [exact Hnd |].
    intros x. rewrite Hmem, elem_of_cons. split; [tauto |].
    intros [[-> | Hx] Hout]; [contradiction | auto].
  - destruct (IH (y :: seen)) as [Hnd Hmem]. split.
    + apply NoDup_cons. split; [| exact Hnd].
      intros Hin. apply Hmem in Hin as [_ Hout]. apply Hout, elem_of_cons. auto.
    + intros x. rewrite !elem_of_cons, Hmem, elem_of_cons. split.
      * intros [-> | [Hx Hout]]; [auto |]. split; [auto |]. intros Hs. apply Hout. auto.
      * intros [[-> | Hx] Hout]; [auto |].
        destruct (decide (x = y)) as [-> | Hne]; [auto |].
        right. split; [exact Hx |]. intros [? | ?]; contradiction.
Qed.

(** X17. The list of allowed extensions holds every extension of the accept
    table exactly once: building an array from a set keeps the elements and
    drops the repetitions. *)
Theorem allowed_extensions_are_listed_once (xs : list string) :
  NoDup (Js.unique xs)
  ∧ (∀ x, x ∈ Js.unique xs ↔ x ∈ xs)
  ∧ NoDup allowedExtensions
  ∧ (∀ mime exts ext, (mime, exts) ∈ DROPZONE_ACCEPT → ext ∈ exts →
       ext ∈ allowedExtensions).
Proof.
  assert (Hgen : ∀ ys, NoDup (Js.unique ys) ∧ ∀ x, x ∈ Js.unique ys ↔ x ∈ ys).
  { intros ys. unfold Js.unique. destruct (unique_go_spec [] ys) as [Hnd Hmem].
    split; [exact Hnd |]. intros x. rewrite Hmem. split; [tauto |].
    intros Hx. split; [exact Hx |]. intros Hnil. inversion Hnil. }
  split; [apply Hgen |]. split; [apply Hgen |]. split; [apply Hgen |].
  intros mime exts ext Hrow Hext. unfold allowedExtensions. apply Hgen.
  apply list_elem_of_In, in_concat. exists exts. split; [| apply list_elem_of_In, Hext].
  apply list_elem_of_In, list_elem_of_fmap.
  exists (mime, exts). split; [reflexivity | exact Hrow].
Qed.

Lemma rejections_fold (stamp : nat → Errors.Clock) (l : list (nat * File)) s :
  let s' := foldl (fun st '(i, f) =>
                     with_ui (Errors.addError (stamp i) (rejectedMessage f) false None) st)
                  s l in
  uploadingFiles s' = uploadingFiles s
  ∧ mutations s' = mutations s
  ∧ (NoDup (Errors.message <$> Errors.errors (ui s)) →
       NoDup (Errors.message <$> Errors.errors (ui s')))
  ∧ (∀ msg, Errors.has_message msg (Errors.errors (ui s)) = true →
            Errors.has_message msg (Errors.errors (ui s')) = true)
  ∧ (∀ i f, (i, f) ∈ l →
       Errors.has_message (rejectedMessage f) (Errors.errors (ui s')) = true).
Proof.
  revert s. induction l as [| [k f] l IH]; intros s; simpl.
  { repeat split; auto. intros i f Hf. inversion Hf. }
  remember (with_ui (Errors.addError (stamp k) (rejectedMessage f) false None) s)
    as s1 eqn:Hs1.
  destruct (IH s1) as (Hup & Hmut & Hnd & Hkeep & Hall).
  assert (Hsame : uploadingFiles s1 = uploadingFiles s ∧ mutations s1 = mutations s)
    by (rewrite Hs1; split; reflexivity).
  destruct Hsame as [Hup1 Hmut1]. rewrite Hup1 in Hup. rewrite Hmut1 in Hmut.
  assert (Hgrow : ∀ msg, Errors.has_message msg (Errors.errors (ui s)) = true →
                         Errors.has_message msg (Errors.errors (ui s1)) = true).
  { intros msg Hmsg. rewrite Hs1. simpl. unfold Errors.addError.
    destruct (Errors.has_message (rejectedMessage f) (Errors.errors (ui s)));
      [exact Hmsg |].
    simpl. unfold Errors.has_message in *. rewrite existsb_app, Hmsg. reflexivity. }
  assert (Hnow : Errors.has_message (rejectedMessage f) (Errors.errors (ui s1)) = true).
  { rewrite Hs1. simpl. unfold Errors.addError.
    destruct (Errors.has_message (rejectedMessage f) (Errors.errors (ui s))) eqn:Hhas;
      [exact Hhas |].
    simpl. unfold Errors.has_message. rewrite existsb_app. simpl.
    rewrite bool_decide_eq_true_2 by reflexivity. apply orb_true_r. }
  split; [exact Hup |]. split; [exact Hmut |]. split; [| split].
  - intros H0. apply Hnd. rewrite Hs1. simpl. apply addError_NoDup, H0.
  - intros msg Hmsg. apply Hkeep, Hgrow, Hmsg.
  - intros i f' Hf'. apply elem_of_cons in Hf' as [[= -> ->] | Hf'].
    + apply Hkeep, Hnow.
    + eapply Hall, Hf'.
Qed.

(** X18. After files have been refused by the dropzone, each of them has its
    notice in the error list, the list still shows no message twice, so a
    file refused twice is announced once, and the upload queue is untouched. *)
Theorem rejected_files_are_announced_once stamp fileRejections s :
  let s' := onDropRejected stamp fileRejections s in
  uploadingFiles s' = uploadingFiles s
  ∧ mutations s' = mutations s
  ∧ (NoDup (Errors.message <$> Errors.errors (ui s)) →
       NoDup (Errors.message <$> Errors.errors (ui s')))
  ∧ (∀ f, f ∈ fileRejections →
       Errors.has_message (rejectedMessage f) (Errors.errors (ui s')) = true)
  ∧ (∀ f, Errors.errors (ui (onDropRejected stamp [f; f] s)) =
          Errors.errors (ui (onDropRejected stamp [f] s))).
Proof.
  intros s'. subst s'. unfold onDropRejected.
  destruct (rejections_fold stamp (imap pair fileRejections) s)
    as (Hup & Hmut & Hnd & _ & Hall).
  split; [exact Hup |]. split; [exact Hmut |]. split; [exact Hnd |].
  split.
  { intros f Hf. apply list_elem_of_lookup in Hf as [i Hi].
    apply (Hall i f). apply list_elem_of_lookup. exists i.
    rewrite list_lookup_imap, Hi. reflexivity. }
  intros f. simpl. unfold Errors.addError at 1.
  assert (Hnow : Errors.has_message (rejectedMessage f)
            (Errors.errors (Errors.addError (stamp 0) (rejectedMessage f) false None (ui s)))
            = true).
  { unfold Errors.addError.
    destruct (Errors.has_message (rejectedMessage f) (Errors.errors (ui s))) eqn:Hhas;
      [exact Hhas |].
    simpl. unfold Errors.has_message. rewrite existsb_app. simpl.
    rewrite bool_decide_eq_true_2 by reflexivity. apply orb_true_r. }
  rewrite Hnow. reflexivity.
Qed.

End DropFacts.

(** ** Sources: polling and the texts of a connection in progress *)

Section PollingFacts.

Import Sources Polling.



(** X20. The heading, the line under the progress bar and the spinner of a
    connection in progress are computed separately and always tell the same
    phase. *)
Theorem phase_texts_agree (c : PostgresConnectionDetails) :
  (phaseLabel c = "Connecting..." ↔ phaseDetail c = "Connecting...")
  ∧ (phaseLabel c = "Querying tables..."
     ↔ phaseDetail c = "Understanding feature attributes...")
  ∧ (phaseLabel c = "Summarizing..." ↔ phaseDetail c = "Takes about 30 seconds...")
  ∧ (isSummarizing c = true ↔ phaseLabel c = "Summarizing...").
Proof.
  unfold phaseLabel, phaseDetail, isSummarizing.
  destruct (bool_decide (default 0%Z (processed_tables_count c) = 0%Z)
            && bool_decide (default 0%Z (table_count c) = 0%Z)); simpl.
  { repeat split; intros; try reflexivity; discriminate. }
  repeat case_bool_decide; simpl; try lia;
    repeat split; intros; try reflexivity; try discriminate.
Qed.

End PollingFacts.

(** ** Tab visibility *)

Section VisibilityFacts.

Import Visibility.

(** X21. From a state with no timeout pending, a tab that goes to the
    background keeps its socket for ten minutes and loses it from then on,
    as long as it stays in the background. *)
Theorem hidden_tab_keeps_socket_for_ten_minutes now t conversationId s :
  timers s = [] →
  hiddenTimeoutExpired s = false →
  let hidden := handleVisibilityChange now "hidden" s in
  shouldConnect (Some conversationId) hidden = true
  ∧ ((t < now + 600000)%Z → shouldConnect (Some conversationId) (advance t hidden) = true)
  ∧ ((now + 600000 <= t)%Z →
       shouldConnect (Some conversationId) (advance t hidden) = false
       ∧ timers (advance t hidden) = []
       ∧ hiddenTimerRef (advance t hidden) = None).
Proof.
  intros Hclean Hfresh hidden. subst hidden.
  unfold handleVisibilityChange. simpl. rewrite Hclean, Hfresh. simpl.
  unfold advance, shouldConnect. simpl.
  split; [reflexivity |]. split.
  - intros Ht. rewrite bool_decide_eq_false_2; [reflexivity |].
    intros Hex. apply Exists_cons in Hex as [Hdue | Hnil].
    + simpl in Hdue. unfold WS_REMAIN_OPEN_FOR_MS in Hdue. lia.
    + inversion Hnil.
  - intros Ht. rewrite bool_decide_eq_true_2.
    + simpl. rewrite filter_cons, filter_nil. simpl.
      destruct (decide _) as [Hnot | _]; [| auto].
      exfalso. apply Hnot. unfold WS_REMAIN_OPEN_FOR_MS. lia.
    + apply Exists_cons. left. simpl. unfold WS_REMAIN_OPEN_FOR_MS. lia.
Qed.

(** X22. Coming back to the tab reconnects and cancels the pending timeout
    for good: however long the tab was hidden and however much time passes
    afterwards, the socket is wanted and no timeout is left. *)
Theorem returning_to_tab_cancels_timeout t0 t1 t conversationId s :
  timers s = [] →
  let hidden := advance t1 (handleVisibilityChange t0 "hidden" s) in
  let back := handleVisibilityChange t1 "visible" hidden in
  timers back = []
  ∧ hiddenTimerRef back = None
  ∧ advance t back = back
  ∧ shouldConnect (Some conversationId) (advance t back) = true.
Proof.
  intros Hclean hidden back.
  assert (Htimers : timers back = []).
  { subst back hidden. unfold handleVisibilityChange at 2. simpl. rewrite Hclean. simpl.
    unfold advance. simpl. case_bool_decide as Hdue; simpl.
    - rewrite filter_cons, filter_nil.
      destruct (decide _) as [Hnot | _]; [| reflexivity].
      exfalso. apply Exists_cons in Hdue as [Hd | Hnil]; [| inversion Hnil].
      apply Hnot, Hd.
    - unfold clearTimeout. rewrite filter_cons, filter_nil.
      destruct (decide _) as [Hne | _]; [| reflexivity].
      exfalso. apply Hne. reflexivity. }
  assert (Hadv : advance t back = back).
  { unfold advance. rewrite Htimers.
    rewrite bool_decide_eq_false_2; [reflexivity |]. intros Hex. inversion Hex. }
  split; [exact Htimers |]. split; [reflexivity |]. split; [exact Hadv |].
  rewrite Hadv. reflexivity.
Qed.

End VisibilityFacts.

(** ** The list of maps *)

Section MapsListFacts.

Import MapsList.

(** X23. For a current page within range, the page links form a run of
    consecutive page numbers within range that contains the current page; it
    holds all pages when there are at most five, and otherwise three to five
    pages, none further than two from the current one. *)
Theorem visible_pages_form_a_window_around_current (totalPages currentPage : Z) :
  (1 <= currentPage <= totalPages)%Z →
  let pages := getVisiblePages totalPages currentPage in
  currentPage ∈ pages
  ∧ NoDup pages
  ∧ (length pages <= 5)%nat
  ∧ (∀ p, p ∈ pages → (1 <= p <= totalPages)%Z)
  ∧ (∃ first, pages = seqZ first (Z.of_nat (length pages)))
  ∧ ((totalPages <= 5)%Z → pages = seqZ 1 totalPages)
  ∧ ((5 < totalPages)%Z →
       (3 <= length pages)%nat
       ∧ ∀ p, p ∈ pages ↔ (1 <= p <= totalPages ∧ currentPage - 2 <= p <= currentPage + 2)%Z).
Proof.
  intros Hcur pages. subst pages. unfold getVisiblePages.
  destruct (Z.leb_spec totalPages 5) as [Hsmall | Hlarge].
  - split; [apply elem_of_seqZ; lia |]. split; [apply NoDup_seqZ |].
    split; [rewrite length_seqZ; lia |].
    split; [intros p Hp; apply elem_of_seqZ in Hp; lia |].
    split; [exists 1%Z; rewrite length_seqZ; f_equal; lia |].
    split; [reflexivity | lia].
  - split; [apply elem_of_seqZ; lia |]. split; [apply NoDup_seqZ |].
    split; [rewrite length_seqZ; lia |].
    split; [intros p Hp; apply elem_of_seqZ in Hp; lia |].
    split; [eexists; rewrite length_seqZ; f_equal; lia |].
    split; [lia |]. intros _.
    split; [rewrite length_seqZ; lia |].
    intros p. rewrite elem_of_seqZ. lia.
Qed.

(** X24. The previous and next links never leave the range of pages: on the
    first page "previous" does nothing, on the last page "next" does nothing,
    and elsewhere they move by one and undo each other. *)
Theorem page_links_stay_in_range (totalPages currentPage : Z) :
  (1 <= currentPage <= totalPages)%Z →
  (1 <= previousPage currentPage <= totalPages)%Z
  ∧ (1 <= nextPage totalPages currentPage <= totalPages)%Z
  ∧ previousPage 1 = 1%Z
  ∧ nextPage totalPages totalPages = totalPages
  ∧ ((currentPage < totalPages)%Z →
       previousPage (nextPage totalPages currentPage) = currentPage)
  ∧ ((1 < currentPage)%Z →
       nextPage totalPages (previousPage currentPage) = currentPage).
Proof.
  intros Hcur. unfold previousPage, nextPage.
  rewrite Z.ltb_irrefl.
  destruct (Z.ltb_spec 1 currentPage), (Z.ltb_spec currentPage totalPages);
    repeat split; try lia; intros;
    repeat match goal with
           | |- context [(?a <? ?b)%Z] => destruct (Z.ltb_spec a b)
           end; lia.
Qed.

(** X25. The age shown for a project edited in the past is never positive
    and uses the largest unit that has been reached: fewer than 60 seconds,
    1 to 59 minutes, 1 to 23 hours, or whole days; a project dated in the
    future is always counted in seconds, however far ahead. *)
Theorem last_edited_age_uses_largest_unit (diffMs : Z) :
  let value := (lastEditedAge diffMs).1 in
  let unit := (lastEditedAge diffMs).2 in
  ((diffMs < 0)%Z → unit = "second" ∧ (0 < value)%Z ∧ value = (- (diffMs / 1000))%Z)
  ∧ ((0 <= diffMs < 60000)%Z →
       unit = "second" ∧ (-59 <= value <= 0)%Z ∧ value = (- (diffMs / 1000))%Z)
  ∧ ((60000 <= diffMs < 3600000)%Z →
       unit = "minute" ∧ (-59 <= value <= -1)%Z ∧ value = (- (diffMs / 60000))%Z)
  ∧ ((3600000 <= diffMs < 86400000)%Z →
       unit = "hour" ∧ (-23 <= value <= -1)%Z ∧ value = (- (diffMs / 3600000))%Z)
  ∧ ((86400000 <= diffMs)%Z →
       unit = "day" ∧ (value <= -1)%Z ∧ value = (- (diffMs / 86400000))%Z).
Proof.
  intros value unit. subst value unit. unfold lastEditedAge.
  assert (Hmin : (diffMs / 1000 / 60 = diffMs / 60000)%Z)
    by (rewrite Z.div_div by lia; reflexivity).
  assert (Hhour : (diffMs / 1000 / 60 / 60 = diffMs / 3600000)%Z)
    by (rewrite !Z.div_div by lia; reflexivity).
  assert (Hday : (diffMs / 1000 / 60 / 60 / 24 = diffMs / 86400000)%Z)
    by (rewrite !Z.div_div by lia; reflexivity).
  rewrite Hday, Hhour, Hmin.
  pose proof (Z.div_mod diffMs 1000 ltac:(lia)) as E1.
  pose proof (Z.mod_pos_bound diffMs 1000 ltac:(lia)) as B1.
  pose proof (Z.div_mod diffMs 60000 ltac:(lia)) as E2.
  pose proof (Z.mod_pos_bound diffMs 60000 ltac:(lia)) as B2.
  pose proof (Z.div_mod diffMs 3600000 ltac:(lia)) as E3.
  pose proof (Z.mod_pos_bound diffMs 3600000 ltac:(lia)) as B3.
  pose proof (Z.div_mod diffMs 86400000 ltac:(lia)) as E4.
  pose proof (Z.mod_pos_bound diffMs 86400000 ltac:(lia)) as B4.
  destruct (Z.ltb_spec (diffMs / 1000) 60);
    [| destruct (Z.ltb_spec (diffMs / 60000) 60);
       [| destruct (Z.ltb_spec (diffMs / 3600000) 24)]];
    simpl; repeat split; intros; try reflexivity; lia.
Qed.

End MapsListFacts.

(** ** Hidden layers *)

Section LayerFacts.

Import Layers.

(** X26. Toggling a layer flips whether it is hidden and changes no other
    layer; the list of hidden layers stays free of repetitions, and toggling
    twice a layer that was shown gives the list back. *)
Theorem toggling_flips_one_layer (layerId : string) (hidden : list string) :
  (layerId ∈ toggleLayerVisibility layerId hidden ↔ layerId ∉ hidden)
  ∧ (∀ other, other ≠ layerId →
       (other ∈ toggleLayerVisibility layerId hidden ↔ other ∈ hidden))
  ∧ (NoDup hidden → NoDup (toggleLayerVisibility layerId hidden))
  ∧ (layerId ∉ hidden →
       toggleLayerVisibility layerId (toggleLayerVisibility layerId hidden) = hidden)
  ∧ (∀ errors, layerId ∈ hidden →
       getNameClassName hidden errors layerId = "line-through text-gray-400"
       ∧ getNameClassName (toggleLayerVisibility layerId hidden) errors layerId
         ≠ "line-through text-gray-400").
Proof.
  unfold toggleLayerVisibility.
  destruct (decide (layerId ∈ hidden)) as [Hin | Hout].
  - rewrite bool_decide_eq_true_2 by assumption.
    split; [| split; [| split; [| split]]].
    + rewrite list_elem_of_filter. tauto.
    + intros other Hne. rewrite list_elem_of_filter. tauto.
    + apply NoDup_filter.
    + contradiction.
    + intros errors _. unfold getNameClassName.
      rewrite bool_decide_eq_true_2 by assumption. split; [reflexivity |].
      rewrite bool_decide_eq_false_2 by (rewrite list_elem_of_filter; tauto).
      case_bool_decide; discriminate.
  - rewrite bool_decide_eq_false_2 by assumption.
    split; [| split; [| split; [| split]]].
    + rewrite elem_of_app, list_elem_of_singleton. tauto.
    + intros other Hne. rewrite elem_of_app, list_elem_of_singleton. tauto.
    + intros Hnd. apply NoDup_app. split; [exact Hnd |].
      split; [| apply NoDup_singleton].
      intros x Hx Hx'. apply list_elem_of_singleton in Hx'. subst x. contradiction.
    + intros _.
      rewrite bool_decide_eq_true_2
        by (apply elem_of_app; right; apply list_elem_of_singleton; reflexivity).
      rewrite filter_app, filter_cons, filter_nil.
      destruct (decide (layerId ≠ layerId)) as [Hne | _]; [contradiction |].
      rewrite app_nil_r. apply filter_all.
      apply Forall_forall. intros x Hx ->. contradiction.
    + intros errors Hin. contradiction.
Qed.

End LayerFacts.

(** ** The further properties at concrete inputs *)

Module Fixtures.

Import Js Reconciler Scenario.

(** The error list after one report of "boom". *)
Definition boom_store : Errors.Store :=
  Errors.addError clock0 "boom" false None Errors.empty.

Definition boom_id : string := pretty (Errors.now clock0) +:+ Errors.random clock0.

(** An action on layer "L1" that does not zoom. *)
Definition a2_active : EphemeralAction :=
  {| action_id := "a2"; status := "active"; layer_id := Some "L1";
     bounds := None; error_message := None; updates := None |}.

Definition a2_completed : EphemeralAction :=
  {| action_id := "a2"; status := "completed"; layer_id := Some "L1";
     bounds := None; error_message := None;
     updates := Some {| style_json := Undefined |} |}.

(** One upload in flight, at 40%. *)
Definition uploading : Transfer.State :=
  {| Transfer.queue :=
       [{| Upload.id := "small.geojson-1730000000000-k3j9x2m1q";
           Upload.file := smallFile; Upload.progress := 40;
           Upload.status := "uploading"; Upload.error := None |}];
     Transfer.toasts := [];
     Transfer.timers := [];
     Transfer.projectInvalidations := 0;
     Transfer.mapInvalidations := 0;
     Transfer.navigations := [] |}.

Definition uploaded : Transfer.Response :=
  {| Transfer.layer_name := "small"; Transfer.dag_child_map_id := Some "M2" |}.

End Fixtures.

Section FurtherWitnesses.

Import Js Reconciler Scenario Fixtures.

Lemma state_seen_wellFormed : Navigation.wellFormed state_seen.
Proof.
  split; [repeat constructor | simpl; lia].
Qed.

(** X2, witness: "boom" is dismissed and reported again. *)
Lemma dismissed_error_can_be_reported_again_witness :
  Errors.toasts (Errors.dismissError boom_id boom_store) = Errors.toasts boom_store
  ∧ Errors.timers (Errors.dismissError boom_id boom_store) = Errors.timers boom_store.
Proof.
  assert (Honly : ∀ e, e ∈ Errors.errors boom_store → Errors.message e = "boom" →
                       Errors.id e = boom_id).
  { intros e He _. apply list_elem_of_singleton in He. subst e. reflexivity. }
  destruct (dismissed_error_can_be_reported_again boom_id clock1 "boom" false None
              boom_store Honly) as (_ & Ht & Htm & _).
  exact (conj Ht Htm).
Defined.

(** X5, witness: the completion of "a1" while it is shown as active. *)
Lemma completed_clears_its_action_witness :
  zoomState (processMessage env1 (Ephemeral a1_completed) state_seen) = zoomState state_seen.
Proof.
  destruct (completed_clears_its_action env1 a1_completed state_seen eq_refl eq_refl)
    as (_ & _ & H).
  exact H.
Defined.

(** X6, witness: "a1" becomes active and completes. *)
Lemma active_then_completed_leaves_no_trace_witness :
  activeActions (run initial [(env0, Ephemeral a1_active); (env1, Ephemeral a1_completed)])
  = filter (fun x => action_id x ≠ action_id a1_completed) (activeActions initial).
Proof.
  exact (active_then_completed_leaves_no_trace env0 env1 a1_active a1_completed initial
           eq_refl eq_refl eq_refl eq_refl eq_refl).
Defined.

(** X7, witness: the completion of "a2" overtakes its start. *)
Lemma late_active_event_stays_listed_witness :
  Layers.hasActiveAction "L1"
    (activeActions (run initial [(env0, Ephemeral a2_completed);
                                 (env1, Ephemeral a2_active)])) = true.
Proof.
  assert (Hfresh : action_id a2_active ∉ processedBoundsActionIds initial)
    by apply not_elem_of_empty.
  destruct (late_active_event_stays_listed env0 env1 a2_completed a2_active "L1" initial
              eq_refl eq_refl eq_refl eq_refl Hfresh eq_refl) as (_ & H).
  exact H.
Defined.

(** X8, witness: the failure notice of "a1". *)
Lemma error_notification_only_reports_witness :
  activeActions (processMessage env1 (Ephemeral a1_failing) state_seen)
  = activeActions state_seen.
Proof.
  destruct (error_notification_only_reports env1 a1_failing state_seen eq_refl)
    as (H & _).
  exact H.
Defined.


(** X11, witness: back and forth over the history of "a1". *)
Lemma previous_then_next_returns_witness :
  zoomHistoryIndex (Navigation.nextLocation env1 (Navigation.previousLocation env0 state_seen))
  = zoomHistoryIndex state_seen.
Proof.
  destruct (previous_then_next_returns env0 view0 env1 view0 state_seen
              state_seen_wellFormed eq_refl eq_refl eq_refl) as (H & _).
  exact H.
Defined.

(** X12, witness: the zoom of "a1" undone from the empty history. *)
Lemma previous_location_undoes_action_zoom_witness :
  zoomHistoryIndex
    (Navigation.previousLocation env1 (processMessage env0 (Ephemeral a1_active) initial))
  = (zoomHistoryIndex initial + 1)%Z.
Proof.
  assert (Hwf : Navigation.wellFormed initial) by (split; [constructor | simpl; lia]).
  assert (Hfresh : action_id a1_active ∉ processedBoundsActionIds initial)
    by apply not_elem_of_empty.
  destruct (previous_location_undoes_action_zoom env0 env1 a1_active view0 view0 boundsD
              initial Hwf eq_refl eq_refl eq_refl eq_refl eq_refl Hfresh eq_refl)
    as (_ & H & _).
  exact H.
Defined.

(** X14, witness: the upload finishes and names a child map. *)
Lemma finished_upload_is_pruned_and_followed_up_witness :
  Transfer.projectInvalidations
    (Transfer.onSuccess 1730000009000 "P1" uploaded
       "small.geojson-1730000000000-k3j9x2m1q" uploading) = 1%nat.
Proof.
  destruct (finished_upload_is_pruned_and_followed_up 1730000009000 "P1" uploaded
              "small.geojson-1730000000000-k3j9x2m1q" uploading eq_refl)
    as (_ & _ & H & _).
  exact H.
Defined.

(** X15, witness: the upload fails. *)
Lemma failed_upload_is_shown_then_pruned_witness :
  Transfer.toasts
    (Transfer.onError 1730000009000 "Unsupported file" smallFile
       "small.geojson-1730000000000-k3j9x2m1q" uploading)
  = ["Error uploading small.geojson: Unsupported file"].
Proof.
  destruct (failed_upload_is_shown_then_pruned 1730000009000 "Unsupported file" smallFile
              "small.geojson-1730000000000-k3j9x2m1q" uploading eq_refl)
    as (_ & _ & H & _).
  exact H.
Defined.

(** X21, witness: a visible tab is hidden at time 0. *)
Lemma hidden_tab_keeps_socket_for_ten_minutes_witness :
  Visibility.shouldConnect (Some 7%Z)
    (Visibility.advance 600000
       (Visibility.handleVisibilityChange 0 "hidden" (Visibility.initial true))) = false.
Proof.
  destruct (hidden_tab_keeps_socket_for_ten_minutes 0 600000 7
              (Visibility.initial true) eq_refl eq_refl) as (_ & _ & H).
  destruct (H ltac:(lia)) as (H' & _).
  exact H'.
Defined.

(** X22, witness: the tab is hidden at 0 and shown again after five minutes. *)
Lemma returning_to_tab_cancels_timeout_witness :
  Visibility.shouldConnect (Some 7%Z)
    (Visibility.advance 900000
       (Visibility.handleVisibilityChange 300000 "visible"
          (Visibility.advance 300000
             (Visibility.handleVisibilityChange 0 "hidden" (Visibility.initial true)))))
  = true.
Proof.
  destruct (returning_to_tab_cancels_timeout 0 300000 900000 7
              (Visibility.initial true) eq_refl) as (_ & _ & _ & H).
  exact H.
Defined.

(** X23, witness: page 2 of 3. *)
Lemma visible_pages_form_a_window_around_current_witness :
  MapsList.getVisiblePages 3 2 = seqZ 1 3.
Proof.
  destruct (visible_pages_form_a_window_around_current 3 2 ltac:(lia))
    as (_ & _ & _ & _ & _ & H & _).
  exact (H ltac:(lia)).
Defined.

(** X24, witness: page 3 of 10. *)
Lemma page_links_stay_in_range_witness :
  MapsList.previousPage (MapsList.nextPage 10 3) = 3%Z.
Proof.
  destruct (page_links_stay_in_range 10 3 ltac:(lia)) as (_ & _ & _ & _ & H & _).
  exact (H ltac:(lia)).
Defined.

End FurtherWitnesses.

Section EffectRerun.

Import Js Reconciler Scenario.

(** X27. When a run of the message effect has moved the zoom index, the run
    that React starts again on the same message changes nothing: the action
    does not zoom twice and is not listed twice. *)
Theorem effect_rerun_after_zoom_is_idle env msg s :
  zoomHistoryIndex (processMessage env msg s) ≠ zoomHistoryIndex s →
  processMessage env msg (processMessage env msg s) = processMessage env msg s
  ∧ deliver env msg s = processMessage env msg s
  ∧ ∃ action, msg = Ephemeral action
              ∧ last (activeActions (processMessage env msg s)) = Some action
              ∧ action_id action ∈ processedBoundsActionIds (processMessage env msg s).
Proof.
  intros Hmoved.
  destruct (processMessage_cases env msg s)
    as [Hsame | (action & m & b & -> & Herr & Hreq & Hout & Heq)].
  { exfalso. apply Hmoved. unfold zoomState in Hsame. congruence. }
  assert (Hin : action_id action ∈
                processedBoundsActionIds (processMessage env (Ephemeral action) s)).
  { rewrite Heq. simpl. apply elem_of_union. right. apply elem_of_singleton. reflexivity. }
  split; [apply processMessage_guard_hit with m b; assumption |].
  split; [apply deliver_processMessage |].
  exists action. split; [reflexivity |]. split; [| exact Hin].
  rewrite Heq. simpl. apply last_snoc.
Qed.

(** X27, witness: the zoom of "a1" from the empty state. *)
Lemma effect_rerun_after_zoom_is_idle_witness :
  deliver env0 (Ephemeral a1_active) initial
  = processMessage env0 (Ephemeral a1_active) initial.
Proof.
  assert (Hmoved : zoomHistoryIndex (processMessage env0 (Ephemeral a1_active) initial)
                   ≠ zoomHistoryIndex initial).
  { intros Heq. vm_compute in Heq. discriminate Heq. }
  destruct (effect_rerun_after_zoom_is_idle env0 (Ephemeral a1_active) initial Hmoved)
    as (_ & H & _).
  exact H.
Defined.

End EffectRerun.
